(** * nix_tcp: a blocking one-to-one TCP wrapper and its packet format

    Shallow embedding of [src/nix_tcp.hpp].  The class [TcpSocket] becomes a
    record that every member function takes and gives back; a thrown
    [TcpError] is an outcome of the call.  The operating system is not part
    of the program: each member function receives, next to the object, the
    values its system calls return (in the order the calls are made), and
    [send] reports the buffers it handed to [::send].

    Machine integers are [Z] with the wrap-around of their C++ type written
    out ([uint8], [ulong]); vectors are lists read and written by index, an
    index outside the vector being undefined behaviour ([Undefined]). *)

From Stdlib Require Import ZArith Lia.
From Stdlib.Strings Require Import Byte.
From stdpp Require Import base option list strings.

Local Open Scope Z_scope.

(** ** Machine integers and bytes *)

(** Conversion to [uint8_t]. *)
Definition uint8 (z : Z) : Z := z mod 2 ^ 8.

(** Conversion to [unsigned long] / [size_t] (64 bits: [std::min] is called
    with one argument of each type, so they are the same type). *)
Definition ulong (z : Z) : Z := z mod 2 ^ 64.

(** Largest value of [int], the type [auto offset = 0] gives to [offset]. *)
Definition INT_MAX : Z := 2 ^ 31 - 1.

Definition byte_of_Z (z : Z) : byte :=
  default "000"%byte (Byte.of_N (Z.to_N (uint8 z))).

Definition Z_of_byte (b : byte) : Z := Z.of_N (Byte.to_N b).

(** [v[i] = b] on a [std::vector<uint8_t>]: defined only inside the vector. *)
Definition store (v : list byte) (i : nat) (b : byte) : option (list byte) :=
  if decide (i < length v)%nat then Some (<[i:=b]> v) else None.

(** ** The error type and the socket object *)

Record TcpError := { code : Z; message : string }.

Record TcpSocket := {
  sockfd : option Z;          (* local socket file descriptor *)
  remote_sockfd : option Z;   (* remote socket file descriptor *)
  packet_len : Z              (* uint8_t *)
}.

(** What a call does: it returns, it throws, it runs into undefined
    behaviour (an index outside a vector, overflow of an [int]), or it has
    not returned when the recorded system-call results are used up (a
    blocked [::recv], a loop that is still running). *)
Inductive outcome (A : Type) : Type :=
| Returns (a : A)
| Throws (e : TcpError)
| Undefined
| Pending.
Arguments Returns {A} a.
Arguments Throws {A} e.
Arguments Undefined {A}.
Arguments Pending {A}.

Definition finished {A} (o : outcome A) : bool :=
  match o with Returns _ | Throws _ => true | Undefined | Pending => false end.

(** The errors the state guards throw. *)
Definition AlreadyBound : TcpError := {| code := -1; message := "socket already bound" |}.
Definition NotBound : TcpError := {| code := -2; message := "socket unbound" |}.
Definition AlreadyConnected : TcpError := {| code := -1; message := "socket already connected" |}.
Definition NotConnected : TcpError := {| code := -2; message := "socket disconnected" |}.
Definition BindFailed : TcpError := {| code := 1; message := "couldn't bind to any address" |}.
Definition ConnectFailed : TcpError := {| code := 1; message := "couldn't connect to any address" |}.
Definition ShortRead : TcpError := {| code := 1; message := "invalid received packet length" |}.

(** [TcpSocket(uint8_t packet_len)]: the argument is converted to [uint8_t]
    at the call and stored as it is. *)
Definition TcpSocket_new (packet_len : Z) : TcpSocket :=
  {| sockfd := None; remote_sockfd := None; packet_len := uint8 packet_len |}.

(** [TcpSocket()] *)
Definition TcpSocket_default : TcpSocket := TcpSocket_new 64.

Definition is_bound (self : TcpSocket) : bool :=
  match sockfd self with Some _ => true | None => false end.

Definition is_connected (self : TcpSocket) : bool :=
  match remote_sockfd self with Some _ => true | None => false end.

Definition set_sockfd (self : TcpSocket) (fd : option Z) : TcpSocket :=
  {| sockfd := fd; remote_sockfd := remote_sockfd self; packet_len := packet_len self |}.

Definition set_remote_sockfd (self : TcpSocket) (fd : option Z) : TcpSocket :=
  {| sockfd := sockfd self; remote_sockfd := fd; packet_len := packet_len self |}.

(** ** System-call results *)

(** A call that returns a number and sets [errno] when that number is -1. *)
Record syscall := { ret : Z; errno : Z }.

(** One entry of the list [getaddrinfo] gives to [bind], with what
    [socket], [setsockopt] and [::bind] return for it. *)
Record bind_candidate := {
  bc_socket : Z;
  bc_setsockopt : syscall;
  bc_bind : Z
}.

(** One entry of the list [getaddrinfo] gives to [connect], with what
    [socket] and [::connect] return for it. *)
Record connect_candidate := {
  cc_socket : Z;
  cc_connect : Z
}.

(** The result of [getaddrinfo]: its return value, [gai_strerror] of it,
    and the list it stored in [server_info]. *)
Record resolved (candidate : Type) := {
  gai_ret : Z;
  gai_strerror : string;
  server_info : list candidate
}.
Arguments gai_ret {candidate} _.
Arguments gai_strerror {candidate} _.
Arguments server_info {candidate} _.

(** What one call of [::recv] does: it returns -1 and sets [errno], or it
    stores some bytes at the start of the buffer and returns how many (none
    when the peer has closed the connection). *)
Inductive recv_ret : Type :=
| RecvErr (e : Z)
| RecvGot (bs : list byte).

(** ** bind *)

Fixpoint bind_loop (self : TcpSocket) (i : list bind_candidate)
  : outcome unit * TcpSocket :=
  match i with
  | [] =>
      (* i == nullptr *)
      (Throws BindFailed, set_sockfd self None)
  | c :: next =>
      let self := set_sockfd self (Some (bc_socket c)) in
      if bc_socket c =? -1 then bind_loop self next
      else if ret (bc_setsockopt c) =? -1 then
        (Throws {| code := errno (bc_setsockopt c);
                   message := "couldn't set socket options" |}, self)
      else if bc_bind c =? -1 then bind_loop self next
      else (Returns (), self)
  end.

Definition bind (self : TcpSocket) (gai : resolved bind_candidate)
  : outcome unit * TcpSocket :=
  if is_bound self then (Throws AlreadyBound, self)
  else if negb (gai_ret gai =? 0) then
    (Throws {| code := gai_ret gai; message := gai_strerror gai |}, self)
  else bind_loop self (server_info gai).

(** ** accept *)

(** [while (true)] around [::accept]: one recorded return value per turn. *)
Fixpoint accept_loop (self : TcpSocket) (accepts : list Z)
  : outcome unit * TcpSocket :=
  match accepts with
  | [] => (Pending, self)
  | fd :: accepts' =>
      let self := set_remote_sockfd self (Some fd) in
      if negb (fd =? -1) then (Returns (), self)
      else accept_loop self accepts'
  end.

Definition accept (self : TcpSocket) (listen : syscall) (accepts : list Z)
  : outcome unit * TcpSocket :=
  if negb (is_bound self) then (Throws NotBound, self)
  else if is_connected self then (Throws AlreadyConnected, self)
  else if ret listen =? -1 then
    (Throws {| code := errno listen;
               message := "couldn't listen for connections" |}, self)
  else accept_loop self accepts.

(** ** connect *)

Fixpoint connect_loop (self : TcpSocket) (i : list connect_candidate)
  : outcome unit * TcpSocket :=
  match i with
  | [] =>
      (* i == nullptr *)
      (Throws ConnectFailed, set_remote_sockfd self None)
  | c :: next =>
      let self := set_remote_sockfd self (Some (cc_socket c)) in
      if cc_socket c =? -1 then connect_loop self next
      else if cc_connect c =? -1 then connect_loop self next
      else (Returns (), self)
  end.

Definition connect (self : TcpSocket) (gai : resolved connect_candidate)
  : outcome unit * TcpSocket :=
  if negb (is_bound self) then (Throws NotBound, self)
  else if is_connected self then (Throws AlreadyConnected, self)
  else if negb (gai_ret gai =? 0) then
    (Throws {| code := gai_ret gai; message := gai_strerror gai |}, self)
  else connect_loop self (server_info gai).

(** ** send *)

(** [count = std::min((unsigned long)this->packet_len - 1, data_size - offset)],
    stored in a [uint8_t]. *)
Definition chunk_count (packet_len data_size offset : Z) : Z :=
  uint8 (Z.min (ulong (ulong packet_len - 1)) (ulong (data_size - offset))).

(** [for (i = 1; i <= count; i++) packet[i] = data[i - 1 + offset];]
    with [todo] turns left. *)
Fixpoint fill_packet (todo : nat) (i offset : nat) (data packet : list byte)
  : option (list byte) :=
  match todo with
  | O => Some packet
  | S todo' =>
      b ← data !! (i - 1 + offset)%nat;
      packet' ← store packet i b;
      fill_packet todo' (S i) offset data packet'
  end.

(** The chunk loop of [send].  [sends] holds what the coming calls of
    [::send] return; [wire] collects what those calls have taken from the
    buffer so far (the first [ret] bytes of the packet). *)
Fixpoint send_loop (sends : list syscall) (packet_len : Z) (data : list byte)
    (offset : Z) (packet : list byte) (wire : list (list byte))
  : outcome unit * list (list byte) :=
  let data_size := Z.of_nat (length data) in
  if ulong offset <? data_size then
    let count := chunk_count packet_len data_size offset in
    match store packet 0 (byte_of_Z count) with
    | None => (Undefined, wire)
    | Some packet =>
        match fill_packet (Z.to_nat count) 1 (Z.to_nat offset) data packet with
        | None => (Undefined, wire)
        | Some packet =>
            match sends with
            | [] => (Pending, wire)
            | r :: sends' =>
                if ret r =? -1 then
                  (Throws {| code := errno r; message := "couldn't send data" |}, wire)
                else
                  let wire := wire ++ [take (Z.to_nat (ret r)) packet] in
                  if INT_MAX <? offset + count then (Undefined, wire)
                  else send_loop sends' packet_len data (offset + count) packet wire
            end
        end
    end
  else (Returns (), wire).

Definition send (self : TcpSocket) (data : list byte) (sends : list syscall)
  : outcome unit * TcpSocket * list (list byte) :=
  if negb (is_bound self) then (Throws NotBound, self, [])
  else if negb (is_connected self) then (Throws NotConnected, self, [])
  else
    let packet := replicate (Z.to_nat (packet_len self)) "000"%byte in
    let '(o, wire) := send_loop sends (packet_len self) data 0 packet [] in
    (o, self, wire).

(** ** recv *)

(** [for (i = 1; i <= count; i++) data.push_back(packet[i]);]
    with [todo] turns left. *)
Fixpoint push_chunk (todo : nat) (i : nat) (packet data : list byte)
  : option (list byte) :=
  match todo with
  | O => Some data
  | S todo' =>
      b ← packet !! i;
      push_chunk todo' (S i) packet (data ++ [b])
  end.

(** The packet loop of [recv]: one recorded result of [::recv] per turn. *)
Fixpoint recv_loop (recvs : list recv_ret) (packet_len : Z)
    (packet data : list byte) : outcome (list byte) :=
  match recvs with
  | [] => Pending
  | RecvErr e :: _ => Throws {| code := e; message := "couldn't send data" |}
  | RecvGot bs :: recvs' =>
      let received := Z.of_nat (length bs) in
      if negb (received =? packet_len) then Throws ShortRead
      else
        let packet := bs ++ drop (length bs) packet in
        match packet !! 0%nat with
        | None => Undefined
        | Some b =>
            let count := Z_of_byte b in
            match push_chunk (Z.to_nat count) 1 packet data with
            | None => Undefined
            | Some data =>
                if count <? packet_len - 1 then Returns data
                else recv_loop recvs' packet_len packet data
            end
        end
  end.

Definition recv (self : TcpSocket) (recvs : list recv_ret)
  : outcome (list byte) * TcpSocket :=
  if negb (is_bound self) then (Throws NotBound, self)
  else if negb (is_connected self) then (Throws NotConnected, self)
  else
    let packet := replicate (Z.to_nat (packet_len self)) "000"%byte in
    (recv_loop recvs (packet_len self) packet [], self).

(** ** A connected pair *)

(** The transport between two connected sockets at its best: the peer's
    [::recv] calls return what this side's [::send] calls took, one call
    for one call. *)
Definition deliver (wire : list (list byte)) : list recv_ret := RecvGot <$> wire.

(** [::send] calls that take the whole packet. *)
Definition whole (packet_len : Z) (n : nat) : list syscall :=
  replicate n {| ret := packet_len; errno := 0 |}.

(** The three states of the object. *)
Definition Unbound (remote : option Z) (packet_len : Z) : TcpSocket :=
  {| sockfd := None; remote_sockfd := remote; packet_len := packet_len |}.

Definition Bound (fd : Z) (remote : option Z) (packet_len : Z) : TcpSocket :=
  {| sockfd := Some fd; remote_sockfd := remote; packet_len := packet_len |}.

Definition Connected (fd rfd : Z) (packet_len : Z) : TcpSocket :=
  Bound fd (Some rfd) packet_len.

(** A connected socket to run examples on. *)
Definition connected (packet_len : Z) : TcpSocket := Connected 3 4 packet_len.

Definition bytes_of (l : list Z) : list byte := byte_of_Z <$> l.

(** ** The frames of a message *)

(** The frame one turn of the loop leaves in the buffer: the length byte,
    the chunk, and behind it what the buffer held before. *)
Definition next_frame (c : nat) (prev rest : list byte) : list byte :=
  let chunk := take c rest in
  byte_of_Z (Z.of_nat (length chunk)) :: chunk ++ drop (S (length chunk)) prev.

(** [n] turns of the loop, started with [prev] in the buffer and [rest]
    still to send, [c] bytes of data to a frame. *)
Fixpoint frames (n c : nat) (prev rest : list byte) : list (list byte) :=
  match n with
  | O => []
  | S n' =>
      let fr := next_frame c prev rest in
      fr :: frames n' c fr (drop c rest)
  end.

(** [k] bytes in chunks of [c]: the quotient rounded up. *)
Definition frame_count (c k : nat) : nat := ((k + c - 1) / c)%nat.

(** What [send] leaves on the wire when every packet is taken whole. *)
Definition sent_frames (f : Z) (data : list byte) : list (list byte) :=
  let c := Z.to_nat (f - 1) in
  frames (frame_count c (length data)) c
    (replicate (Z.to_nat f) "000"%byte) data.

(** ** The memory of a call of [send] *)

(** What the body of [send] can reach while it runs: the object behind
    [this], the caller's vector behind the reference [data], and its own
    variables.  Each statement of the body is a step on this memory, so
    that what a statement assigns is what changes. *)
Record send_memory := {
  m_this : TcpSocket;            (* *this *)
  m_data : list byte;            (* the vector [data] refers to *)
  m_packet : list byte;          (* std::vector<uint8_t> packet *)
  m_data_size : Z;               (* auto data_size *)
  m_offset : Z;                  (* auto offset *)
  m_count : Z;                   (* uint8_t count *)
  m_i : Z;                       (* auto i *)
  m_wire : list (list byte)      (* what ::send has taken so far *)
}.

Definition set_packet (m : send_memory) (packet : list byte) : send_memory :=
  {| m_this := m_this m; m_data := m_data m; m_packet := packet;
     m_data_size := m_data_size m; m_offset := m_offset m;
     m_count := m_count m; m_i := m_i m; m_wire := m_wire m |}.

Definition set_data_size (m : send_memory) (n : Z) : send_memory :=
  {| m_this := m_this m; m_data := m_data m; m_packet := m_packet m;
     m_data_size := n; m_offset := m_offset m;
     m_count := m_count m; m_i := m_i m; m_wire := m_wire m |}.

Definition set_offset (m : send_memory) (n : Z) : send_memory :=
  {| m_this := m_this m; m_data := m_data m; m_packet := m_packet m;
     m_data_size := m_data_size m; m_offset := n;
     m_count := m_count m; m_i := m_i m; m_wire := m_wire m |}.

Definition set_count (m : send_memory) (n : Z) : send_memory :=
  {| m_this := m_this m; m_data := m_data m; m_packet := m_packet m;
     m_data_size := m_data_size m; m_offset := m_offset m;
     m_count := n; m_i := m_i m; m_wire := m_wire m |}.

Definition set_i (m : send_memory) (n : Z) : send_memory :=
  {| m_this := m_this m; m_data := m_data m; m_packet := m_packet m;
     m_data_size := m_data_size m; m_offset := m_offset m;
     m_count := m_count m; m_i := n; m_wire := m_wire m |}.

Definition set_wire (m : send_memory) (wire : list (list byte)) : send_memory :=
  {| m_this := m_this m; m_data := m_data m; m_packet := m_packet m;
     m_data_size := m_data_size m; m_offset := m_offset m;
     m_count := m_count m; m_i := m_i m; m_wire := wire |}.

(** [for (...; i <= count; i++) packet[i] = data[i - 1 + offset];]
    with [todo] turns left. *)
Fixpoint fill_mem (todo : nat) (m : send_memory) : option send_memory :=
  match todo with
  | O => Some m
  | S todo' =>
      b ← m_data m !! Z.to_nat (m_i m - 1 + m_offset m);
      packet' ← store (m_packet m) (Z.to_nat (m_i m)) b;
      fill_mem todo' (set_i (set_packet m packet') (m_i m + 1))
  end.

(** The chunk loop of [send], statement by statement. *)
Fixpoint send_mem_loop (sends : list syscall) (m : send_memory)
  : outcome unit * send_memory :=
  if ulong (m_offset m) <? m_data_size m then
    let m :=
      set_count m
        (chunk_count (packet_len (m_this m)) (m_data_size m) (m_offset m)) in
    match store (m_packet m) 0 (byte_of_Z (m_count m)) with
    | None => (Undefined, m)
    | Some packet' =>
        let m := set_i (set_packet m packet') 1 in
        match fill_mem (Z.to_nat (m_count m)) m with
        | None => (Undefined, m)
        | Some m =>
            match sends with
            | [] => (Pending, m)
            | r :: sends' =>
                if ret r =? -1 then
                  (Throws {| code := errno r; message := "couldn't send data" |}, m)
                else
                  let m :=
                    set_wire m
                      (m_wire m ++ [take (Z.to_nat (ret r)) (m_packet m)]) in
                  if INT_MAX <? m_offset m + m_count m then (Undefined, m)
                  else
                    send_mem_loop sends'
                      (set_offset m (m_offset m + m_count m))
            end
        end
    end
  else (Returns (), m).

(** The body of [send] on the memory it starts with: the object, the
    caller's vector, and variables that hold nothing yet. *)
Definition send_mem (self : TcpSocket) (data : list byte)
    (sends : list syscall) : outcome unit * send_memory :=
  let m :=
    {| m_this := self; m_data := data; m_packet := [];
       m_data_size := 0; m_offset := 0; m_count := 0; m_i := 0;
       m_wire := [] |} in
  if negb (is_bound (m_this m)) then (Throws NotBound, m)
  else if negb (is_connected (m_this m)) then (Throws NotConnected, m)
  else
    let m :=
      set_packet m
        (replicate (Z.to_nat (packet_len (m_this m))) "000"%byte) in
    let m := set_data_size m (Z.of_nat (length (m_data m))) in
    let m := set_offset m 0 in
    let m := set_i m 0 in
    send_mem_loop sends m.

(** ** The destructor *)

(** [~TcpSocket()]: the descriptors it gives to [close], in the order of the
    calls. *)
Definition destructor (self : TcpSocket) : list Z :=
  (if is_connected self
   then match remote_sockfd self with Some fd => [fd] | None => [] end
   else [])
  ++
  (if is_bound self
   then match sockfd self with Some fd => [fd] | None => [] end
   else []).

(** ** Reading the loops *)

(** A candidate the loop of [bind] leaves behind with [continue]: [socket]
    returned -1, or [setsockopt] did not fail and [::bind] returned -1. *)
Definition bc_skipped (c : bind_candidate) : bool :=
  (bc_socket c =? -1)
  || (negb (ret (bc_setsockopt c) =? -1) && (bc_bind c =? -1)).

(** A candidate at which the loop of [bind] reaches [break]. *)
Definition bc_usable (c : bind_candidate) : bool :=
  negb (bc_socket c =? -1) && negb (ret (bc_setsockopt c) =? -1)
  && negb (bc_bind c =? -1).

(** A candidate the loop of [connect] leaves behind with [continue]. *)
Definition cc_skipped (c : connect_candidate) : bool :=
  (cc_socket c =? -1) || (cc_connect c =? -1).

(** A candidate at which the loop of [connect] reaches [break]. *)
Definition cc_usable (c : connect_candidate) : bool :=
  negb (cc_socket c =? -1) && negb (cc_connect c =? -1).

(** What [recv] appends for a packet: as many bytes behind the first one as
    the first one says. *)
Definition payload (fr : list byte) : list byte :=
  match fr with
  | [] => []
  | b :: chunk => take (Z.to_nat (Z_of_byte b)) chunk
  end.

(** The length byte of a packet. *)
Definition length_byte (fr : list byte) : option Z := Z_of_byte <$> head fr.

(** A packet of the right size that announces a full chunk, and one that
    announces a shorter chunk. *)
Definition full_packet (f : Z) (fr : list byte) : Prop :=
  Z.of_nat (length fr) = f /\ length_byte fr = Some (f - 1).

Definition short_packet (f : Z) (fr : list byte) : Prop :=
  Z.of_nat (length fr) = f /\ exists l, length_byte fr = Some l /\ l < f - 1.

(** What a call of [::send] that returned [ret r] took of the packet. *)
Definition taken (r : syscall) (fr : list byte) : list byte :=
  take (Z.to_nat (ret r)) fr.

(** ** The life of a socket *)

(** What the code keeps true of the object between calls: no descriptor
    stored is -1, and the socket is not connected without being bound. *)
Definition well_formed (self : TcpSocket) : Prop :=
  sockfd self <> Some (-1) /\
  remote_sockfd self <> Some (-1) /\
  (is_connected self = true -> is_bound self = true).

(** The sockets a program can hold: a new one, and one that a member
    function has given back by returning or throwing. *)
Inductive reachable : TcpSocket -> Prop :=
| reach_new f : reachable (TcpSocket_new f)
| reach_bind s gai o s' :
    reachable s -> bind s gai = (o, s') -> finished o = true -> reachable s'
| reach_accept s listen accepts o s' :
    reachable s -> accept s listen accepts = (o, s') -> finished o = true ->
    reachable s'
| reach_connect s gai o s' :
    reachable s -> connect s gai = (o, s') -> finished o = true ->
    reachable s'
| reach_send s data sends o s' wire :
    reachable s -> send s data sends = (o, s', wire) -> finished o = true ->
    reachable s'
| reach_recv s recvs o s' :
    reachable s -> recv s recvs = (o, s') -> finished o = true ->
    reachable s'.

(** * Properties *)

(** ** Bytes and vectors *)

Lemma uint8_range z : 0 <= uint8 z < 256.
Proof. unfold uint8. change (2 ^ 8) with 256. apply Z.mod_pos_bound. lia. Qed.

Lemma uint8_small z : 0 <= z < 256 -> uint8 z = z.
Proof. intros H. unfold uint8. change (2 ^ 8) with 256. by apply Z.mod_small. Qed.

Lemma Z_of_byte_of_Z z : Z_of_byte (byte_of_Z z) = uint8 z.
Proof.
  unfold Z_of_byte, byte_of_Z.
  pose proof (uint8_range z) as Hr.
  destruct (Byte.of_N (Z.to_N (uint8 z))) as [b|] eqn:Hb.
  - apply Byte.to_of_N in Hb. simpl. rewrite Hb. lia.
  - apply Byte.of_N_None_iff in Hb. lia.
Qed.

Lemma Z_of_byte_range b : 0 <= Z_of_byte b < 256.
Proof.
  unfold Z_of_byte. pose proof (Byte.to_N_bounded b). lia.
Qed.

Lemma store_Some (v : list byte) i b :
  (i < length v)%nat -> store v i b = Some (<[i:=b]> v).
Proof. intros H. unfold store. by rewrite decide_True. Qed.

Lemma store_None (v : list byte) i b :
  (length v <= i)%nat -> store v i b = None.
Proof. intros H. unfold store. rewrite decide_False; [done | lia]. Qed.

(** The copy loop of [send] overwrites offsets [i .. i + todo - 1] of the
    packet with the next [todo] bytes of the data and keeps the rest. *)
Lemma fill_packet_spec todo : forall i offset (data packet : list byte),
  (1 <= i)%nat ->
  (i + todo <= length packet)%nat ->
  (i - 1 + offset + todo <= length data)%nat ->
  fill_packet todo i offset data packet =
    Some (take i packet ++ take todo (drop (i - 1 + offset) data)
            ++ drop (i + todo) packet).
Proof.
  induction todo as [|todo IH]; intros i offset data packet Hi Hp Hd; simpl.
  - rewrite Nat.add_0_r. by rewrite take_drop.
  - destruct (lookup_lt_is_Some_2 data (i - 1 + offset)%nat) as [b Hb]; [lia|].
    rewrite Hb. simpl. rewrite store_Some by lia. simpl.
    rewrite IH by (rewrite ?length_insert; lia).
    f_equal.
    rewrite (drop_S data b (i - 1 + offset)) by done.
    replace (S i - 1 + offset)%nat with (S (i - 1 + offset)) by lia.
    rewrite (take_S_r (<[i:=b]> packet) i b) by (apply list_lookup_insert_eq; lia).
    rewrite take_insert_ge by lia.
    rewrite drop_insert_lt by lia.
    replace (S i + todo)%nat with (i + S todo)%nat by lia.
    by rewrite <- app_assoc.
Qed.

(** The copy loop of [send] keeps the size of the packet. *)
Lemma fill_packet_length todo : forall i offset (data packet packet' : list byte),
  fill_packet todo i offset data packet = Some packet' ->
  length packet' = length packet.
Proof.
  induction todo as [|todo IH]; intros i offset data packet packet' H; simpl in H.
  - by inversion H.
  - destruct (data !! (i - 1 + offset)%nat) as [b|]; [|done]. simpl in H.
    unfold store in H. case_decide; [|done]. simpl in H.
    apply IH in H. by rewrite length_insert in H.
Qed.

(** The append loop of [recv] pushes offsets [i .. i + todo - 1] of the
    packet. *)
Lemma push_chunk_spec todo : forall i (packet data : list byte),
  (i + todo <= length packet)%nat ->
  push_chunk todo i packet data = Some (data ++ take todo (drop i packet)).
Proof.
  induction todo as [|todo IH]; intros i packet data Hp; simpl.
  - by rewrite app_nil_r.
  - destruct (lookup_lt_is_Some_2 packet i) as [b Hb]; [lia|].
    rewrite Hb. simpl. rewrite IH by lia.
    rewrite (drop_S packet b i) by done. simpl.
    by rewrite <- app_assoc.
Qed.


(** ** The chunk loop of [send], one turn at a time *)

Lemma send_loop_eq sends packet_len data offset packet wire :
  send_loop sends packet_len data offset packet wire =
  let data_size := Z.of_nat (length data) in
  if ulong offset <? data_size then
    let count := chunk_count packet_len data_size offset in
    match store packet 0 (byte_of_Z count) with
    | None => (Undefined, wire)
    | Some packet =>
        match fill_packet (Z.to_nat count) 1 (Z.to_nat offset) data packet with
        | None => (Undefined, wire)
        | Some packet =>
            match sends with
            | [] => (Pending, wire)
            | r :: sends' =>
                if ret r =? -1 then
                  (Throws {| code := errno r; message := "couldn't send data" |}, wire)
                else
                  let wire := wire ++ [take (Z.to_nat (ret r)) packet] in
                  if INT_MAX <? offset + count then (Undefined, wire)
                  else send_loop sends' packet_len data (offset + count) packet wire
            end
        end
    end
  else (Returns (), wire).
Proof. by destruct sends. Qed.

Lemma ulong_small z : 0 <= z < 2 ^ 64 -> ulong z = z.
Proof. intros H. unfold ulong. by apply Z.mod_small. Qed.

(** With a packet length of at least 1 the chunk is the smaller of what a
    packet holds and what is left of the data. *)
Lemma chunk_count_min f data_size offset :
  1 <= f <= 255 -> 0 <= offset <= data_size -> data_size <= INT_MAX ->
  chunk_count f data_size offset = Z.min (f - 1) (data_size - offset).
Proof.
  unfold INT_MAX. intros Hf Ho Hd. unfold chunk_count.
  rewrite (ulong_small f) by lia.
  rewrite (ulong_small (f - 1)) by lia.
  rewrite (ulong_small (data_size - offset)) by lia.
  apply uint8_small. lia.
Qed.

Lemma take_length_take (c : nat) (l : list byte) :
  take (length (take c l)) l = take c l.
Proof.
  rewrite length_take.
  destruct (decide (c <= length l)%nat).
  - by rewrite Nat.min_l.
  - rewrite Nat.min_r by lia. rewrite !take_ge; [done|lia|lia].
Qed.

Lemma length_next_frame c prev rest :
  (c < length prev)%nat -> length (next_frame c prev rest) = length prev.
Proof.
  intros H. unfold next_frame. simpl.
  rewrite length_app, length_drop, length_take. lia.
Qed.

Lemma next_frame_head c prev rest :
  next_frame c prev rest !! 0%nat =
    Some (byte_of_Z (Z.of_nat (length (take c rest)))).
Proof. done. Qed.

Lemma next_frame_tail c prev rest :
  drop 1 (next_frame c prev rest) =
    take c rest ++ drop (S (length (take c rest))) prev.
Proof. done. Qed.

(** Behind the chunk a frame holds what the buffer held before. *)
Lemma next_frame_padding c prev rest (j : nat) :
  (length (take c rest) < j)%nat ->
  next_frame c prev rest !! j = prev !! j.
Proof.
  intros Hj. unfold next_frame.
  destruct j as [|j]; [lia|]. simpl.
  rewrite lookup_app_r by lia.
  rewrite lookup_drop. f_equal. lia.
Qed.

Section send_turn.
Variables (f : Z) (data packet : list byte) (offset : Z).
Hypothesis Hf : 1 <= f <= 255.
Hypothesis Hpacket : length packet = Z.to_nat f.
Hypothesis Hoffset : 0 <= offset <= Z.of_nat (length data).
Hypothesis Hsize : Z.of_nat (length data) <= INT_MAX.

Local Abbreviation count := (chunk_count f (Z.of_nat (length data)) offset).

Lemma send_turn_count :
  count = Z.min (f - 1) (Z.of_nat (length data) - offset).
Proof. by apply chunk_count_min. Qed.

Lemma send_turn_count_nat :
  Z.to_nat count =
    length (take (Z.to_nat (f - 1)) (drop (Z.to_nat offset) data)).
Proof. rewrite send_turn_count, length_take, length_drop. lia. Qed.

(** Writing the length byte and copying the chunk stay inside the packet
    and leave [next_frame] in it. *)
Lemma send_turn_packet :
  exists packet0,
    store packet 0 (byte_of_Z count) = Some packet0 /\
    fill_packet (Z.to_nat count) 1 (Z.to_nat offset) data packet0 =
      Some (next_frame (Z.to_nat (f - 1)) packet (drop (Z.to_nat offset) data)).
Proof using Hf Hpacket Hoffset Hsize.
  pose proof send_turn_count as Hc.
  pose proof send_turn_count_nat as Hn.
  exists (<[0%nat:=byte_of_Z count]> packet). split.
  - apply store_Some. lia.
  - rewrite fill_packet_spec; rewrite ?length_insert; [|lia|lia|lia].
    f_equal. unfold next_frame.
    destruct packet as [|p0 packet']; [simpl in Hpacket; lia|].
    simpl. rewrite <- Hn.
    replace (Z.of_nat (Z.to_nat count)) with count by lia.
    do 2 f_equal.
    rewrite Hn. apply take_length_take.
Qed.
End send_turn.

(** ** The frames a whole message leaves on the wire *)

Lemma frame_count_0 c : (1 <= c)%nat -> frame_count c 0 = 0%nat.
Proof. intros H. unfold frame_count. apply Nat.div_small. lia. Qed.

Lemma frame_count_step c k :
  (1 <= c)%nat -> (1 <= k)%nat ->
  frame_count c k = S (frame_count c (k - Nat.min c k)).
Proof.
  intros Hc Hk. unfold frame_count.
  destruct (decide (k <= c)%nat) as [Hle|Hgt].
  - rewrite Nat.min_r by done.
    replace (k - k + c - 1)%nat with (c - 1)%nat by lia.
    rewrite (Nat.div_small (c - 1)) by lia.
    symmetry. apply (Nat.div_unique _ _ _ (k - 1)); lia.
  - rewrite Nat.min_l by lia.
    replace (k + c - 1)%nat with ((k - c + c - 1) + 1 * c)%nat by lia.
    rewrite Nat.div_add by lia. lia.
Qed.

Lemma frame_count_pos c k :
  (1 <= c)%nat -> (1 <= k)%nat -> (1 <= frame_count c k)%nat.
Proof. intros Hc Hk. rewrite frame_count_step by done. lia. Qed.

Lemma length_frames n : forall c prev rest, length (frames n c prev rest) = n.
Proof. induction n as [|n IH]; intros; simpl; [done|]. by rewrite IH. Qed.

Lemma whole_S f n : whole f (S n) = {| ret := f; errno := 0 |} :: whole f n.
Proof. done. Qed.

Lemma drop_chunk (data : list byte) (o c : nat) :
  (o <= length data)%nat ->
  drop (o + Nat.min c (length data - o)) data = drop c (drop o data).
Proof.
  intros Ho. rewrite drop_drop.
  destruct (decide (c <= length data - o)%nat).
  - by rewrite Nat.min_l.
  - rewrite !drop_ge; [done|lia|lia].
Qed.

Section send_whole.
Variables (f : Z) (data : list byte).
Hypothesis Hf : 1 <= f <= 255.
Hypothesis Hsize : Z.of_nat (length data) <= INT_MAX.

Local Abbreviation c := (Z.to_nat (f - 1)).
Local Abbreviation len := (Z.of_nat (length data)).

(** While data is left, a turn builds [next_frame], hands it to [::send]
    and moves on by the chunk. *)
Lemma send_loop_turn r sends offset packet wire :
  length packet = Z.to_nat f ->
  0 <= offset < len ->
  ret r <> -1 ->
  send_loop (r :: sends) f data offset packet wire =
    let fr := next_frame c packet (drop (Z.to_nat offset) data) in
    send_loop sends f data (offset + Z.min (f - 1) (len - offset)) fr
      (wire ++ [take (Z.to_nat (ret r)) fr]).
Proof using Hf Hsize.
  intros Hp Ho Hr. rewrite send_loop_eq. cbv zeta.
  unfold INT_MAX in *.
  rewrite ulong_small by lia.
  destruct (Z.ltb_spec offset (Z.of_nat (length data))) as [_|?]; [|lia].
  destruct (send_turn_packet f data packet offset) as (p0 & Hs & Hfill);
    [lia|done|lia|done|].
  rewrite Hs, Hfill.
  destruct (Z.eqb_spec (ret r) (-1)) as [?|_]; [done|].
  rewrite chunk_count_min by (unfold INT_MAX; lia).
  destruct (Z.ltb_spec (2 ^ 31 - 1)
              (offset + Z.min (f - 1) (Z.of_nat (length data) - offset)))
    as [?|_]; [lia|].
  done.
Qed.

Lemma send_loop_done sends packet wire :
  send_loop sends f data len packet wire = (Returns (), wire).
Proof using Hsize.
  rewrite send_loop_eq. cbv zeta. unfold INT_MAX in *.
  rewrite ulong_small by lia.
  destruct (Z.ltb_spec len (Z.of_nat (length data))) as [?|_]; [lia|done].
Qed.

(** When [::send] takes every packet whole, the wire holds [frames]. *)
Lemma send_loop_whole n : forall offset packet wire,
  2 <= f ->
  length packet = Z.to_nat f ->
  0 <= offset <= len ->
  (frame_count c (Z.to_nat (len - offset)) <= n)%nat ->
  send_loop (whole f n) f data offset packet wire =
    (Returns (),
     wire ++ frames (frame_count c (Z.to_nat (len - offset))) c packet
               (drop (Z.to_nat offset) data)).
Proof using Hf Hsize.
  induction n as [|n IH]; intros offset packet wire Hf2 Hp Ho Hn.
  - destruct (decide (offset = len)) as [->|Hne].
    + rewrite send_loop_done, Z.sub_diag, frame_count_0 by lia.
      simpl. by rewrite app_nil_r.
    + pose proof (frame_count_pos c (Z.to_nat (len - offset))). lia.
  - destruct (decide (offset = len)) as [->|Hne].
    + rewrite send_loop_done, Z.sub_diag, frame_count_0 by lia.
      simpl. by rewrite app_nil_r.
    + rewrite whole_S, send_loop_turn by (simpl; lia). cbv zeta.
      rewrite (frame_count_step c (Z.to_nat (len - offset))) in Hn |- * by lia.
      simpl ret.
      rewrite take_ge by (rewrite length_next_frame; lia).
      rewrite IH; [|done| |lia|].
      * simpl frames. rewrite <- app_assoc. simpl. do 4 f_equal.
        -- f_equal. lia.
        -- rewrite <- drop_chunk by lia. f_equal. lia.
      * rewrite length_next_frame; lia.
      * replace (Z.to_nat (len - (offset + Z.min (f - 1) (len - offset))))
          with (Z.to_nat (len - offset) - Nat.min c (Z.to_nat (len - offset)))%nat
          by lia.
        lia.
Qed.

(** With a packet length of at least 2 every turn moves on: however
    [::send] answers, the loop is over after as many turns as the data has
    bytes. *)
Lemma send_loop_finishes sends : forall offset packet wire,
  2 <= f ->
  length packet = Z.to_nat f ->
  0 <= offset <= len ->
  len - offset <= Z.of_nat (length sends) ->
  finished (send_loop sends f data offset packet wire).1 = true.
Proof using Hf Hsize.
  induction sends as [|r sends IH]; intros offset packet wire Hf2 Hp Ho Hn.
  - simpl length in Hn. replace offset with len by lia.
    by rewrite send_loop_done.
  - destruct (decide (offset = len)) as [->|Hne];
      [by rewrite send_loop_done|].
    destruct (decide (ret r = -1)) as [Hr|Hr].
    + rewrite send_loop_eq. cbv zeta. unfold INT_MAX in *.
      rewrite ulong_small by lia.
      destruct (Z.ltb_spec offset (Z.of_nat (length data))) as [_|?]; [|lia].
      destruct (send_turn_packet f data packet offset) as (p0 & Hs & Hfill);
        [lia|done|lia|done|].
      rewrite Hs, Hfill, Hr. done.
    + rewrite send_loop_turn by (done || lia). cbv zeta.
      apply IH; [done| | |].
      * rewrite length_next_frame; lia.
      * lia.
      * simpl length in Hn. lia.
Qed.

(** With a packet length of 1 the chunk is empty and the offset stays
    where it is: as long as [::send] does not fail, the loop goes on. *)
Lemma send_loop_stuck sends : forall offset packet wire,
  f = 1 ->
  length packet = Z.to_nat f ->
  0 <= offset < len ->
  Forall (fun r => ret r <> -1) sends ->
  (send_loop sends f data offset packet wire).1 = Pending.
Proof using Hf Hsize.
  induction sends as [|r sends IH]; intros offset packet wire Hf1 Hp Ho Hs.
  - rewrite send_loop_eq. cbv zeta. unfold INT_MAX in *.
    rewrite ulong_small by lia.
    destruct (Z.ltb_spec offset (Z.of_nat (length data))) as [_|?]; [|lia].
    destruct (send_turn_packet f data packet offset) as (p0 & Hs' & Hfill);
      [lia|done|lia|done|].
    by rewrite Hs', Hfill.
  - inversion Hs as [|? ? Hr Hs']; subst r sends.
    rewrite send_loop_turn by (done || lia). cbv zeta.
    replace (offset + Z.min (f - 1) (len - offset)) with offset by lia.
    apply IH; [done| |done|done].
    rewrite length_next_frame; lia.
Qed.
End send_whole.

(** ** The packet loop of [recv], one turn at a time *)

Lemma recv_loop_got bs recvs packet_len packet data :
  recv_loop (RecvGot bs :: recvs) packet_len packet data =
  let received := Z.of_nat (length bs) in
  if negb (received =? packet_len) then Throws ShortRead
  else
    let packet := bs ++ drop (length bs) packet in
    match packet !! 0%nat with
    | None => Undefined
    | Some b =>
        let count := Z_of_byte b in
        match push_chunk (Z.to_nat count) 1 packet data with
        | None => Undefined
        | Some data =>
            if count <? packet_len - 1 then Returns data
            else recv_loop recvs packet_len packet data
        end
    end.
Proof. done. Qed.

Section recv_turn.
Variables (f : Z).
Hypothesis Hf : 1 <= f <= 255.

Local Abbreviation c := (Z.to_nat (f - 1)).

(** A frame built by [send] gives its chunk back, and ends the message
    when the chunk is shorter than a frame can hold. *)
Lemma recv_loop_frame prev rest recvs packet acc :
  length prev = Z.to_nat f ->
  length packet = Z.to_nat f ->
  recv_loop (RecvGot (next_frame c prev rest) :: recvs) f packet acc =
    if (length rest <? c)%nat then Returns (acc ++ rest)
    else recv_loop recvs f (next_frame c prev rest) (acc ++ take c rest).
Proof using Hf.
  intros Hprev Hpacket. rewrite recv_loop_got. cbv zeta.
  assert (length (next_frame c prev rest) = Z.to_nat f) as Hlen
    by (rewrite length_next_frame; lia).
  rewrite Hlen.
  destruct (Z.eqb_spec (Z.of_nat (Z.to_nat f)) f) as [_|?]; [|lia].
  simpl negb. cbv iota.
  rewrite (drop_ge packet) by lia. rewrite app_nil_r.
  rewrite next_frame_head.
  rewrite Z_of_byte_of_Z, uint8_small, Nat2Z.id
    by (rewrite length_take; lia).
  rewrite push_chunk_spec by (rewrite Hlen, length_take; lia).
  rewrite next_frame_tail, take_app_length.
  rewrite length_take.
  destruct (Nat.ltb_spec (length rest) c) as [Hlt|Hge].
  - destruct (Z.ltb_spec (Z.of_nat (Nat.min c (length rest))) (f - 1))
      as [_|?]; [|lia].
    by rewrite take_ge by lia.
  - destruct (Z.ltb_spec (Z.of_nat (Nat.min c (length rest))) (f - 1))
      as [?|_]; [lia|].
    done.
Qed.

(** The frames of a whole message give the message back when its last
    chunk is short; when the message fills its last frame the loop asks
    for one more packet. *)
Lemma recv_loop_frames n : forall prev rest packet acc,
  2 <= f ->
  length prev = Z.to_nat f ->
  length packet = Z.to_nat f ->
  n = frame_count c (length rest) ->
  recv_loop (deliver (frames n c prev rest)) f packet acc =
    if (length rest mod c =? 0)%nat then Pending else Returns (acc ++ rest).
Proof using Hf.
  induction n as [|n IH]; intros prev rest packet acc Hf2 Hprev Hpacket Hn.
  - destruct rest as [|b rest].
    + simpl length. by rewrite Nat.Div0.mod_0_l.
    + pose proof (frame_count_pos c (length (b :: rest))).
      simpl length in *. lia.
  - assert (1 <= length rest)%nat as Hrest.
    { destruct rest; [|simpl; lia].
      simpl length in Hn. rewrite frame_count_0 in Hn; lia. }
    simpl frames. unfold deliver. rewrite fmap_cons.
    rewrite recv_loop_frame by done.
    destruct (Nat.ltb_spec (length rest) c) as [Hlt|Hge].
    + rewrite Nat.mod_small by done.
      destruct (Nat.eqb_spec (length rest) 0) as [?|_]; [lia|done].
    + rewrite frame_count_step in Hn by lia.
      rewrite Nat.min_l in Hn by done.
      fold (deliver (frames n c (next_frame c prev rest) (drop c rest))).
      rewrite IH; [|done| |rewrite length_next_frame; lia|].
      * rewrite length_drop.
        replace (length rest) with ((length rest - c) + 1 * c)%nat at 2 by lia.
        rewrite Nat.Div0.mod_add.
        rewrite <- app_assoc, take_drop. done.
      * rewrite length_next_frame; lia.
      * rewrite length_drop. lia.
Qed.

End recv_turn.

(** ** Whole calls on a connected socket *)

Lemma frame_count_le c k : (1 <= c)%nat -> (frame_count c k <= k)%nat.
Proof.
  intros Hc. unfold frame_count.
  destruct k as [|k].
  - rewrite Nat.div_small; lia.
  - apply Nat.Div0.div_le_upper_bound. nia.
Qed.

Lemma send_connected self data sends :
  is_bound self = true -> is_connected self = true ->
  send self data sends =
    let '(o, wire) :=
      send_loop sends (packet_len self) data 0
        (replicate (Z.to_nat (packet_len self)) "000"%byte) [] in
    (o, self, wire).
Proof. intros Hb Hc. unfold send. by rewrite Hb, Hc. Qed.

Lemma recv_connected self recvs :
  is_bound self = true -> is_connected self = true ->
  recv self recvs =
    (recv_loop recvs (packet_len self)
       (replicate (Z.to_nat (packet_len self)) "000"%byte) [], self).
Proof. intros Hb Hc. unfold recv. by rewrite Hb, Hc. Qed.

Lemma send_whole self data n :
  is_bound self = true -> is_connected self = true ->
  2 <= packet_len self <= 255 ->
  Z.of_nat (length data) <= INT_MAX ->
  (length data <= n)%nat ->
  send self data (whole (packet_len self) n) =
    (Returns (), self, sent_frames (packet_len self) data).
Proof.
  intros Hb Hc Hf Hsize Hn. rewrite send_connected by done.
  pose proof (frame_count_le (Z.to_nat (packet_len self - 1)) (length data)).
  rewrite send_loop_whole; rewrite ?length_replicate, ?Z.sub_0_r, ?Nat2Z.id;
    [|lia|done|lia|done|lia|lia].
  by rewrite drop_0.
Qed.

(** The [k]-th frame is built over the one before it from the [k]-th chunk. *)
Lemma frames_lookup n : forall c prev rest (k : nat) fr,
  frames n c prev rest !! k = Some fr ->
  fr = next_frame c
         (match k with
          | O => prev
          | S k' => default [] (frames n c prev rest !! k')
          end)
         (drop (k * c) rest).
Proof.
  induction n as [|n IH]; intros c prev rest k fr Hk; [done|].
  destruct k as [|k]; simpl in Hk.
  - inversion Hk. by rewrite drop_0.
  - apply IH in Hk. subst fr. rewrite drop_drop. f_equal.
    destruct k as [|k]; done.
Qed.

Lemma sent_frames_count f data :
  length (sent_frames f data) = frame_count (Z.to_nat (f - 1)) (length data).
Proof. unfold sent_frames. apply length_frames. Qed.

(** ** C1: round trip *)

(** X18.  On a connected pair [recv] gives back what [send] was given when
    the last chunk of the message does not fill its frame. *)
Lemma roundtrip_short_last_chunk sender receiver (m : list byte) n :
  is_bound sender = true -> is_connected sender = true ->
  is_bound receiver = true -> is_connected receiver = true ->
  packet_len receiver = packet_len sender ->
  2 <= packet_len sender <= 255 ->
  Z.of_nat (length m) <= INT_MAX ->
  (length m <= n)%nat ->
  (length m mod Z.to_nat (packet_len sender - 1))%nat <> 0%nat ->
  recv receiver (deliver (send sender m (whole (packet_len sender) n)).2) =
    (Returns m, receiver).
Proof.
  intros Hsb Hsc Hrb Hrc Hlen Hf Hsize Hn Hmod.
  rewrite send_whole by done. simpl snd.
  rewrite recv_connected, Hlen by done. unfold sent_frames.
  rewrite recv_loop_frames; rewrite ?length_replicate; [|lia|lia|done|done|done].
  destruct (Nat.eqb_spec (length m mod Z.to_nat (packet_len sender - 1)) 0);
    done.
Qed.

(** X19.  When the message is empty or fills its last frame, [recv] has used
    up every packet [send] wrote and is waiting for another one. *)
Lemma roundtrip_full_last_chunk sender receiver (m : list byte) n :
  is_bound sender = true -> is_connected sender = true ->
  is_bound receiver = true -> is_connected receiver = true ->
  packet_len receiver = packet_len sender ->
  2 <= packet_len sender <= 255 ->
  Z.of_nat (length m) <= INT_MAX ->
  (length m <= n)%nat ->
  (length m mod Z.to_nat (packet_len sender - 1))%nat = 0%nat ->
  recv receiver (deliver (send sender m (whole (packet_len sender) n)).2) =
    (Pending, receiver).
Proof.
  intros Hsb Hsc Hrb Hrc Hlen Hf Hsize Hn Hmod.
  rewrite send_whole by done. simpl snd.
  rewrite recv_connected, Hlen by done. unfold sent_frames.
  rewrite recv_loop_frames; rewrite ?length_replicate; [|lia|lia|done|done|done].
  by rewrite Hmod.
Qed.

(** C1.  The round trip fails on the code: with packets of 32 bytes (31
    bytes of data to a packet, as in the test program) a message of 31 bytes
    is sent as one full packet and nothing after it, and so is an empty
    message as no packet at all; in both cases [recv] is still waiting when
    it has read everything [send] wrote, where the claim has it return the
    message. *)
Theorem roundtrip_blocks_on_full_last_chunk :
  let m := bytes_of (seqZ 0 31) in
  let sent := send (connected 32) m (whole 32 31) in
  let sent_empty := send (connected 32) [] (whole 32 1) in
  sent.1.1 = Returns () /\ length sent.2 = 1%nat /\
  recv (connected 32) (deliver sent.2) = (Pending, connected 32) /\
  sent_empty = (Returns (), connected 32, []) /\
  recv (connected 32) (deliver sent_empty.2) = (Pending, connected 32).
Proof. vm_compute. done. Qed.

(** ** C2: the frames of a message *)

(** [send] writes the quotient of the message length by the chunk size,
    rounded up, and nothing more. *)
Lemma send_frame_count self data n :
  is_bound self = true -> is_connected self = true ->
  2 <= packet_len self <= 255 ->
  Z.of_nat (length data) <= INT_MAX ->
  (length data <= n)%nat ->
  length (send self data (whole (packet_len self) n)).2 =
    frame_count (Z.to_nat (packet_len self - 1)) (length data).
Proof.
  intros Hb Hc Hf Hsize Hn. rewrite send_whole by done.
  apply sent_frames_count.
Qed.

(** The chunks come in order and none is longer than a frame can hold:
    the [k]-th frame carries its length and the [k]-th slice of the data. *)
Lemma send_frame_chunk self data n (k : nat) fr :
  is_bound self = true -> is_connected self = true ->
  2 <= packet_len self <= 255 ->
  Z.of_nat (length data) <= INT_MAX ->
  (length data <= n)%nat ->
  (send self data (whole (packet_len self) n)).2 !! k = Some fr ->
  let c := Z.to_nat (packet_len self - 1) in
  let chunk := take c (drop (k * c) data) in
  (length chunk <= c)%nat /\
  fr !! 0%nat = Some (byte_of_Z (Z.of_nat (length chunk))) /\
  take (length chunk) (drop 1 fr) = chunk.
Proof.
  intros Hb Hc Hf Hsize Hn Hk c chunk. rewrite send_whole in Hk by done.
  simpl in Hk. apply frames_lookup in Hk. subst fr.
  split; [|split].
  - unfold chunk. rewrite length_take. lia.
  - apply next_frame_head.
  - rewrite next_frame_tail. apply take_app_length.
Qed.

(** C2.  The frame count of the claim fails on the code where the claim
    asks for a frame that closes the message: with 2 bytes of data to a
    frame, the 2 bytes of a message go out in one frame (the claim counts
    two, the second one empty), and an empty message goes out in no frame
    at all (the claim counts one). *)
Theorem send_writes_no_closing_frame :
  send (connected 3) (bytes_of [1; 2]) (whole 3 2) =
    (Returns (), connected 3, [bytes_of [2; 1; 2]]) /\
  send (connected 3) [] (whole 3 2) = (Returns (), connected 3, []).
Proof. vm_compute. done. Qed.

(** ** C3: the length bytes *)

(** X20.  Every frame [send] writes but the last one is full: its length
    byte is the packet length less 1. *)
Lemma send_inner_frames_full self data n (k : nat) fr :
  is_bound self = true -> is_connected self = true ->
  2 <= packet_len self <= 255 ->
  Z.of_nat (length data) <= INT_MAX ->
  (length data <= n)%nat ->
  let wire := (send self data (whole (packet_len self) n)).2 in
  wire !! k = Some fr ->
  (S k < length wire)%nat ->
  fr !! 0%nat = Some (byte_of_Z (packet_len self - 1)).
Proof.
  intros Hb Hc Hf Hsize Hn wire Hk Hlast.
  pose proof (send_frame_count self data n Hb Hc Hf Hsize Hn) as Hcount.
  fold wire in Hcount. rewrite Hcount in Hlast.
  destruct (send_frame_chunk self data n k fr Hb Hc Hf Hsize Hn Hk)
    as (_ & Hhead & _).
  rewrite Hhead. do 2 f_equal.
  rewrite length_take, length_drop.
  set (c := Z.to_nat (packet_len self - 1)) in *.
  assert (c + k * c <= length data)%nat as Hle.
  { unfold frame_count in Hlast.
    pose proof (Nat.Div0.mul_div_le (length data + c - 1) c) as H2.
    set (q := ((length data + c - 1) / c)%nat) in *.
    nia. }
  lia.
Qed.

(** C3.  The last frame of a message is not always short on the code: with
    2 bytes of data to a frame, the second and last frame of a message of 4
    bytes has the length byte 2, which is the size of a full chunk and not
    below it as the claim has it. *)
Theorem send_last_frame_may_be_full :
  let wire := (send (connected 3) (bytes_of [1; 2; 3; 4]) (whole 3 4)).2 in
  wire = [bytes_of [2; 1; 2]; bytes_of [2; 3; 4]] /\
  (last wire ≫= head) = Some (byte_of_Z (3 - 1)).
Proof. vm_compute. done. Qed.

(** ** C7: padding *)

(** C7, as the code has it.  The buffer is filled with zeros once, before the
    loop, and is used again for every frame: behind the chunk, the first
    frame of a message holds zeros, and every later frame holds what the
    frame before it holds at the same offsets. *)
Theorem send_padding self data n (k j : nat) fr b :
  is_bound self = true -> is_connected self = true ->
  2 <= packet_len self <= 255 ->
  Z.of_nat (length data) <= INT_MAX ->
  (length data <= n)%nat ->
  (send self data (whole (packet_len self) n)).2 !! k = Some fr ->
  fr !! 0%nat = Some b ->
  Z_of_byte b < Z.of_nat j < packet_len self ->
  fr !! j =
    match k with
    | O => Some "000"%byte
    | S k' =>
        (send self data (whole (packet_len self) n)).2 !! k' ≫= (.!! j)
    end.
Proof.
  intros Hb Hc Hf Hsize Hn Hk Hhead Hj.
  rewrite send_whole in Hk |- * by done. simpl snd in *.
  unfold sent_frames in *.
  set (c := Z.to_nat (packet_len self - 1)) in *.
  set (zeros := replicate (Z.to_nat (packet_len self)) "000"%byte) in *.
  set (wire := frames (frame_count c (length data)) c zeros data) in *.
  pose proof (lookup_lt_Some _ _ _ Hk) as Hlt.
  apply frames_lookup in Hk. fold wire in Hk.
  rewrite Hk, next_frame_head in Hhead. inversion Hhead as [Hb']. clear Hhead.
  rewrite <- Hb', Z_of_byte_of_Z, uint8_small in Hj
    by (rewrite length_take; lia).
  rewrite Hk, next_frame_padding by lia.
  destruct k as [|k'].
  - apply lookup_replicate_2. lia.
  - destruct (lookup_lt_is_Some_2 wire k') as [prev Hprev]; [lia|].
    by rewrite Hprev.
Qed.

Lemma send_padding_witness :
  bytes_of [1; 3; 2] !! 2%nat =
    (send (connected 3) (bytes_of [1; 2; 3]) (whole 3 3)).2 !! 0%nat
      ≫= (.!! 2%nat).
Proof.
  apply (send_padding (connected 3) (bytes_of [1; 2; 3]) 3 1 2
           (bytes_of [1; 3; 2]) (byte_of_Z 1)).
  - reflexivity.
  - reflexivity.
  - simpl. lia.
  - vm_compute. discriminate.
  - simpl. lia.
  - reflexivity.
  - reflexivity.
  - vm_compute. split; reflexivity.
Defined.

(** C7 as stated fails: the last frame of a message of 3 bytes, sent 2 bytes
    to a frame, carries one byte of data and behind it the second byte of
    the frame before, which is not zero. *)
Lemma send_padding_not_zero :
  let wire := (send (connected 3) (bytes_of [1; 2; 3]) (whole 3 3)).2 in
  wire = [bytes_of [2; 1; 2]; bytes_of [1; 3; 2]] /\
  ~ (forall (k j : nat) fr b,
       wire !! k = Some fr -> fr !! 0%nat = Some b ->
       Z_of_byte b < Z.of_nat j < 3 ->
       fr !! j = Some "000"%byte).
Proof.
  split; [by vm_compute|].
  intros H.
  specialize (H 1%nat 2%nat (bytes_of [1; 3; 2]) (byte_of_Z 1)).
  vm_compute in H.
  assert (Some "002"%byte = Some "000"%byte) as Habs.
  { apply H; [reflexivity|reflexivity|split; reflexivity]. }
  discriminate Habs.
Qed.

(** ** C4: a length byte larger than the frame *)

(** C4.  The code has no check of the length byte: a packet of 4 bytes that
    announces 200 bytes of data makes [recv] read the buffer at offset 4,
    behind its end, where the claim has it throw. *)
Theorem recv_oversized_length_byte :
  recv (connected 4) [RecvGot (bytes_of [200; 1; 2; 3])] =
    (Undefined, connected 4) /\
  push_chunk 200 1 (bytes_of [200; 1; 2; 3]) [] = None /\
  bytes_of [200; 1; 2; 3] !! 4%nat = None.
Proof. vm_compute. done. Qed.


(** ** C5: state guards *)

(** C5, as the code has it.  Every guard throws before any system call and
    leaves the object as it is.  [accept] and [connect] throw [NotBound] on
    an unbound socket and [AlreadyConnected] on a connected one; [bind]
    throws [AlreadyBound] on a bound one; [send] and [recv] throw
    [NotConnected] on a socket that is bound and not connected, and
    [NotBound] (the error of [accept] and [connect]) on an unbound one. *)
Theorem state_guards (fd rfd f : Z) (remote : option Z) :
  (forall listen accepts,
      accept (Unbound remote f) listen accepts =
        (Throws NotBound, Unbound remote f) /\
      accept (Connected fd rfd f) listen accepts =
        (Throws AlreadyConnected, Connected fd rfd f)) /\
  (forall gai,
      connect (Unbound remote f) gai = (Throws NotBound, Unbound remote f) /\
      connect (Connected fd rfd f) gai =
        (Throws AlreadyConnected, Connected fd rfd f)) /\
  (forall gai,
      bind (Bound fd remote f) gai = (Throws AlreadyBound, Bound fd remote f)) /\
  (forall data sends,
      send (Bound fd None f) data sends =
        (Throws NotConnected, Bound fd None f, []) /\
      send (Unbound remote f) data sends =
        (Throws NotBound, Unbound remote f, [])) /\
  (forall recvs,
      recv (Bound fd None f) recvs = (Throws NotConnected, Bound fd None f) /\
      recv (Unbound remote f) recvs = (Throws NotBound, Unbound remote f)).
Proof. repeat split. Qed.

(** C5 as stated fails: on a socket that was never bound [send] and [recv]
    throw the error of an unbound socket, which differs from [NotConnected]
    in its message. *)
Lemma send_recv_unbound_not_NotConnected :
  (send (TcpSocket_new 64) [] []).1.1 = Throws NotBound /\
  (recv (TcpSocket_new 64) []).1 = Throws NotBound /\
  (send (TcpSocket_new 64) [] []).1.1 <> Throws NotConnected /\
  (recv (TcpSocket_new 64) []).1 <> Throws NotConnected.
Proof. repeat split; vm_compute; discriminate. Qed.

(** ** C6: the object after a failure *)

Lemma bind_loop_throws i : forall self e self',
  bind_loop self i = (Throws e, self') ->
  message e <> "couldn't set socket options" ->
  is_bound self' = false.
Proof.
  induction i as [|c next IH]; intros self e self' H Hmsg; simpl in H.
  - by inversion H.
  - destruct (bc_socket c =? -1); [by eapply IH|].
    destruct (ret (bc_setsockopt c) =? -1).
    + inversion H; subst. done.
    + destruct (bc_bind c =? -1); [by eapply IH|done].
Qed.

(** A [bind] that fails for another reason than [setsockopt] leaves the
    socket unbound. *)
Lemma bind_failure_unbound self gai e self' :
  is_bound self = false ->
  bind self gai = (Throws e, self') ->
  message e <> "couldn't set socket options" ->
  is_bound self' = false.
Proof.
  intros Hb H Hmsg. unfold bind in H. rewrite Hb in H.
  destruct (negb (gai_ret gai =? 0)).
  - by inversion H; subst.
  - by eapply bind_loop_throws.
Qed.

Lemma connect_loop_throws i : forall self e self',
  connect_loop self i = (Throws e, self') ->
  sockfd self' = sockfd self /\ is_connected self' = false.
Proof.
  induction i as [|c next IH]; intros self e self' H; simpl in H.
  - by inversion H.
  - destruct (cc_socket c =? -1); [by apply IH in H|].
    destruct (cc_connect c =? -1); [by apply IH in H|done].
Qed.

Lemma accept_loop_never_throws accepts : forall self e self',
  accept_loop self accepts <> (Throws e, self').
Proof.
  induction accepts as [|fd accepts IH]; intros self e self'; simpl; [done|].
  destruct (negb (fd =? -1)); [done|apply IH].
Qed.

(** A [connect] or an [accept] that fails on a bound, unconnected socket
    leaves it bound and unconnected. *)
Lemma connect_accept_failure_bound self e self' :
  is_bound self = true -> is_connected self = false ->
  (forall gai, connect self gai = (Throws e, self') ->
     is_bound self' = true /\ is_connected self' = false) /\
  (forall listen accepts, accept self listen accepts = (Throws e, self') ->
     is_bound self' = true /\ is_connected self' = false).
Proof.
  intros Hb Hc. split.
  - intros gai H. unfold connect in H. rewrite Hb, Hc in H. simpl in H.
    destruct (negb (gai_ret gai =? 0)); [by inversion H; subst|].
    apply connect_loop_throws in H as [Hfd Hconn].
    split; [|done]. unfold is_bound in *. by rewrite Hfd.
  - intros listen accepts H. unfold accept in H. rewrite Hb, Hc in H.
    simpl in H.
    destruct (ret listen =? -1); [by inversion H; subst|].
    by apply accept_loop_never_throws in H.
Qed.

(** C6.  A [bind] that fails in [setsockopt] throws with the descriptor of
    the new socket still stored in the object: [is_bound] is true after the
    failure, where the claim has the socket unbound (as it is after the
    other failures, where the code resets the descriptor). *)
Theorem bind_setsockopt_failure_stays_bound :
  let gai :=
    {| gai_ret := 0; gai_strerror := "Success";
       server_info :=
         [{| bc_socket := 3; bc_setsockopt := {| ret := -1; errno := 22 |};
             bc_bind := 0 |}] |} in
  let after := {| sockfd := Some 3; remote_sockfd := None; packet_len := 64 |} in
  bind (TcpSocket_new 64) gai =
    (Throws {| code := 22; message := "couldn't set socket options" |}, after)
  /\ is_bound after = true.
Proof. vm_compute. done. Qed.

(** ** C8: reading a packet *)

(** C8, as the code has it.  In every turn of its loop [recv] calls [::recv]
    once: it throws the error of the system when the call returns -1, and
    throws [ShortRead] when the call returns any other number of bytes than
    the packet length, whether the peer has closed or the rest of the
    packet has not arrived yet. *)
Theorem recv_reads_once bs e recvs f packet data :
  Z.of_nat (length bs) <> f ->
  recv_loop (RecvGot bs :: recvs) f packet data = Throws ShortRead /\
  recv_loop (RecvErr e :: recvs) f packet data =
    Throws {| code := e; message := "couldn't send data" |}.
Proof.
  intros Hlen. split; [|done].
  rewrite recv_loop_got. cbv zeta.
  destruct (Z.eqb_spec (Z.of_nat (length bs)) f); done.
Qed.

Lemma recv_reads_once_witness :
  recv_loop [RecvGot (bytes_of [1]); RecvGot (bytes_of [7])] 2
    (bytes_of [0; 0]) [] = Throws ShortRead /\
  recv_loop [RecvErr 104; RecvGot (bytes_of [7])] 2 (bytes_of [0; 0]) [] =
    Throws {| code := 104; message := "couldn't send data" |}.
Proof.
  apply (recv_reads_once (bytes_of [1]) 104 [RecvGot (bytes_of [7])] 2
           (bytes_of [0; 0]) []).
  vm_compute. discriminate.
Defined.

(** C8 as stated fails: the three bytes of a packet, arriving in two pieces,
    make [recv] throw after the first piece, though the peer has not closed
    and no call has failed; arriving in one piece they are a message. *)
Lemma recv_split_packet_throws :
  recv (connected 3) [RecvGot (bytes_of [1; 7; 0])] =
    (Returns (bytes_of [7]), connected 3) /\
  recv (connected 3) [RecvGot (bytes_of [1; 7]); RecvGot (bytes_of [0])] =
    (Throws ShortRead, connected 3).
Proof. vm_compute. done. Qed.

(** ** C9: what [send] leaves alone *)

Lemma send_mem_loop_eq sends m :
  send_mem_loop sends m =
  if ulong (m_offset m) <? m_data_size m then
    let m :=
      set_count m
        (chunk_count (packet_len (m_this m)) (m_data_size m) (m_offset m)) in
    match store (m_packet m) 0 (byte_of_Z (m_count m)) with
    | None => (Undefined, m)
    | Some packet' =>
        let m := set_i (set_packet m packet') 1 in
        match fill_mem (Z.to_nat (m_count m)) m with
        | None => (Undefined, m)
        | Some m =>
            match sends with
            | [] => (Pending, m)
            | r :: sends' =>
                if ret r =? -1 then
                  (Throws {| code := errno r; message := "couldn't send data" |}, m)
                else
                  let m :=
                    set_wire m
                      (m_wire m ++ [take (Z.to_nat (ret r)) (m_packet m)]) in
                  if INT_MAX <? m_offset m + m_count m then (Undefined, m)
                  else
                    send_mem_loop sends'
                      (set_offset m (m_offset m + m_count m))
            end
        end
    end
  else (Returns (), m).
Proof. by destruct sends. Qed.

(** The copy loop assigns [packet] and [i] and nothing else. *)
Lemma fill_mem_frame todo : forall m m',
  fill_mem todo m = Some m' ->
  m_this m' = m_this m /\ m_data m' = m_data m /\
  m_data_size m' = m_data_size m /\ m_offset m' = m_offset m /\
  m_count m' = m_count m /\ m_wire m' = m_wire m.
Proof.
  induction todo as [|todo IH]; intros m m' H; simpl in H.
  - by inversion H.
  - destruct (m_data m !! Z.to_nat (m_i m - 1 + m_offset m)) as [b|];
      simpl in H; [|done].
    destruct (store (m_packet m) (Z.to_nat (m_i m)) b) as [packet'|];
      simpl in H; [|done].
    by apply IH in H.
Qed.

(** The copy loop fills the packet as [fill_packet] does. *)
Lemma fill_mem_packet todo : forall m,
  1 <= m_i m -> 0 <= m_offset m ->
  m_packet <$> fill_mem todo m =
    fill_packet todo (Z.to_nat (m_i m)) (Z.to_nat (m_offset m))
      (m_data m) (m_packet m).
Proof.
  induction todo as [|todo IH]; intros m Hi Ho; simpl; [done|].
  replace (Z.to_nat (m_i m) - 1 + Z.to_nat (m_offset m))%nat
    with (Z.to_nat (m_i m - 1 + m_offset m)) by lia.
  destruct (m_data m !! Z.to_nat (m_i m - 1 + m_offset m)) as [b|];
    simpl; [|done].
  destruct (store (m_packet m) (Z.to_nat (m_i m)) b) as [packet'|];
    simpl; [|done].
  rewrite IH by (simpl; lia). simpl.
  by replace (Z.to_nat (m_i m + 1)) with (S (Z.to_nat (m_i m))) by lia.
Qed.

(** The chunk loop assigns none of [*this] and [data]. *)
Lemma send_mem_loop_frame sends : forall m,
  m_this (send_mem_loop sends m).2 = m_this m /\
  m_data (send_mem_loop sends m).2 = m_data m.
Proof.
  induction sends as [|r sends IH]; intros m;
    rewrite send_mem_loop_eq; cbv zeta;
    (destruct (ulong (m_offset m) <? m_data_size m); [|done]);
    (destruct (store _ 0 _) as [packet'|]; [|done]);
    (destruct (fill_mem _ _) as [m'|] eqn:Hfill; [|done]);
    apply fill_mem_frame in Hfill as (Ht & Hd & _); simpl in Ht, Hd.
  - done.
  - destruct (ret r =? -1); [done|].
    destruct (INT_MAX <? _); [done|].
    destruct (IH (set_offset
                    (set_wire m'
                       (m_wire m' ++ [take (Z.to_nat (ret r)) (m_packet m')]))
                    (m_offset
                       (set_wire m'
                          (m_wire m' ++
                           [take (Z.to_nat (ret r)) (m_packet m')])) +
                     m_count
                       (set_wire m'
                          (m_wire m' ++
                           [take (Z.to_nat (ret r)) (m_packet m')])))))
      as [Ht' Hd'].
    simpl in Ht', Hd'. simpl. by rewrite Ht', Hd'.
Qed.

(** The chunk loop ends as [send_loop] ends and sends what it sends. *)
Lemma send_mem_loop_send_loop sends : forall m,
  m_data_size m = Z.of_nat (length (m_data m)) ->
  0 <= m_offset m ->
  send_loop sends (packet_len (m_this m)) (m_data m) (m_offset m)
    (m_packet m) (m_wire m) =
    ((send_mem_loop sends m).1, m_wire (send_mem_loop sends m).2).
Proof.
  induction sends as [|r sends IH]; intros m Hsize Ho;
    rewrite send_mem_loop_eq, send_loop_eq; cbv zeta; rewrite <- Hsize;
    (destruct (ulong (m_offset m) <? m_data_size m); [|done]);
    cbn [m_packet m_count m_this m_data_size m_offset set_count];
    (destruct (store (m_packet m) 0 _) as [packet'|]; [|done]);
    pose proof (fill_mem_packet
                  (Z.to_nat (chunk_count (packet_len (m_this m))
                               (m_data_size m) (m_offset m)))
                  (set_i (set_packet
                            (set_count m
                               (chunk_count (packet_len (m_this m))
                                  (m_data_size m) (m_offset m)))
                            packet') 1)
                  ltac:(simpl; lia) ltac:(done)) as Hpacket;
    cbn [m_packet m_count m_this m_data m_i m_data_size m_offset
         set_count set_packet set_i] in Hpacket;
    change (Z.to_nat 1) with 1%nat in Hpacket;
    rewrite <- Hpacket;
    (destruct (fill_mem _ _) as [m'|] eqn:Hfill; [|done]);
    apply fill_mem_frame in Hfill as (Ht & Hd & Hs & Hoff & Hc & Hw);
    cbn [m_packet m_count m_this m_data m_i m_data_size m_offset m_wire
         set_count set_packet set_i] in Ht, Hd, Hs, Hoff, Hc, Hw;
    cbn [fmap option_fmap option_map].
  - cbn [fst snd]. by rewrite Hw.
  - destruct (ret r =? -1); [cbn [fst snd]; by rewrite Hw|].
    cbn [m_packet m_count m_this m_data m_i m_data_size m_offset m_wire
         set_wire].
    rewrite Hoff, Hc, Hw.
    destruct (INT_MAX <? _); [done|].
    pose proof (uint8_range
                  (Z.min (ulong (ulong (packet_len (m_this m)) - 1))
                     (ulong (m_data_size m - m_offset m)))) as Hcount.
    fold (chunk_count (packet_len (m_this m)) (m_data_size m) (m_offset m))
      in Hcount.
    rewrite <- IH;
      cbn [m_packet m_count m_this m_data m_i m_data_size m_offset m_wire
           set_wire set_offset]; [|congruence|lia].
    by rewrite Ht, Hd.
Qed.

Lemma send_mem_send self data sends :
  m_this (send_mem self data sends).2 = self /\
  m_data (send_mem self data sends).2 = data /\
  send self data sends =
    ((send_mem self data sends).1, self,
     m_wire (send_mem self data sends).2).
Proof.
  unfold send_mem, send. cbv zeta. cbn [m_this m_data].
  destruct (negb (is_bound self)); [done|].
  destruct (negb (is_connected self)); [done|].
  match goal with
  | |- context [send_mem_loop sends ?m0] =>
      pose proof (send_mem_loop_frame sends m0) as [Ht Hd];
      pose proof (send_mem_loop_send_loop sends m0 eq_refl ltac:(done))
        as Hloop
  end.
  cbn [m_packet m_count m_this m_data m_i m_data_size m_offset m_wire
       set_packet set_data_size set_offset set_i] in Ht, Hd, Hloop.
  rewrite Hloop. done.
Qed.

(** C9.  [send] leaves alone what it was given.  Run statement by statement
    on the memory it can reach, a call that returns, throws or is still
    running has assigned neither the object behind [this] (the local
    descriptor, the remote descriptor and the packet length are what they
    were before the call) nor the caller's vector behind [data]; and it
    ends and sends as [send] does.  Nothing is said of a call whose
    behaviour is undefined. *)
Theorem send_keeps_socket_and_data self data sends o m :
  send_mem self data sends = (o, m) ->
  o <> Undefined ->
  sockfd (m_this m) = sockfd self /\
  remote_sockfd (m_this m) = remote_sockfd self /\
  packet_len (m_this m) = packet_len self /\
  m_data m = data /\
  send self data sends = (o, self, m_wire m).
Proof.
  intros H _.
  destruct (send_mem_send self data sends) as (Ht & Hd & Hsend).
  rewrite H in Ht, Hd, Hsend. simpl in Ht, Hd, Hsend.
  by rewrite Ht.
Qed.

Lemma send_keeps_socket_and_data_witness :
  let run := send_mem (connected 3) (bytes_of [1; 2; 3]) (whole 3 3) in
  sockfd (m_this run.2) = Some 3 /\
  remote_sockfd (m_this run.2) = Some 4 /\
  packet_len (m_this run.2) = 3 /\
  m_data run.2 = bytes_of [1; 2; 3] /\
  send (connected 3) (bytes_of [1; 2; 3]) (whole 3 3) =
    (Returns (), connected 3, m_wire run.2).
Proof.
  apply (send_keeps_socket_and_data (connected 3) (bytes_of [1; 2; 3])
           (whole 3 3) (Returns ())).
  - vm_compute. reflexivity.
  - discriminate.
Defined.

(** ** C10: the end of the chunk loop *)

(** C10, as the code has it.  The constructor takes every packet length from
    0 to 255.  With a packet length of at least 2 the loop of [send] ends,
    by a return or a throw, after as many calls of [::send] as the message
    has bytes at most (for messages whose length fits the [int] that counts
    the offset).  With a packet length of 1 and a message that is not empty
    the chunk is empty and the loop never ends as long as [::send] does not
    fail.  With a packet length of 0 the chunk is not empty (it is the
    length of the rest of the data, cut to 8 bits), and the first turn
    writes the length byte into a buffer that has no bytes. *)
Theorem send_loop_end :
  (forall f, 0 <= f <= 255 ->
     TcpSocket_new f =
       {| sockfd := None; remote_sockfd := None; packet_len := f |}) /\
  (forall self data sends,
     is_bound self = true -> is_connected self = true ->
     Z.of_nat (length data) <= INT_MAX ->
     2 <= packet_len self <= 255 ->
     (length data <= length sends)%nat ->
     finished (send self data sends).1.1 = true) /\
  (forall self data sends,
     is_bound self = true -> is_connected self = true ->
     Z.of_nat (length data) <= INT_MAX ->
     packet_len self = 1 -> data <> [] ->
     Forall (fun r => ret r <> -1) sends ->
     chunk_count 1 (Z.of_nat (length data)) 0 = 0 /\
     (send self data sends).1.1 = Pending) /\
  (forall self data sends,
     is_bound self = true -> is_connected self = true ->
     Z.of_nat (length data) <= INT_MAX ->
     packet_len self = 0 -> data <> [] ->
     chunk_count 0 (Z.of_nat (length data)) 0 =
       Z.of_nat (length data) mod 256 /\
     (send self data sends).1.1 = Undefined).
Proof.
  split; [|split; [|split]].
  - intros f Hf. unfold TcpSocket_new. by rewrite uint8_small by lia.
  - intros self data sends Hb Hc Hsize Hf Hn.
    rewrite send_connected by done.
    pose proof (send_loop_finishes (packet_len self) data ltac:(lia) Hsize
                  sends 0
                  (replicate (Z.to_nat (packet_len self)) "000"%byte) [])
      as Hfin.
    destruct (send_loop _ _ _ _ _ _) as [o wire]. simpl in *.
    apply Hfin; rewrite ?length_replicate; lia.
  - intros self data sends Hb Hc Hsize Hf Hdata Hsends.
    assert (1 <= length data)%nat as Hlen
      by (destruct data; [done|simpl; lia]).
    split.
    + rewrite chunk_count_min by lia. lia.
    + rewrite send_connected by done.
      pose proof (send_loop_stuck (packet_len self) data ltac:(lia) Hsize
                    sends 0
                    (replicate (Z.to_nat (packet_len self)) "000"%byte) [])
        as Hstuck.
      destruct (send_loop _ _ _ _ _ _) as [o wire]. simpl in *.
      apply Hstuck; rewrite ?length_replicate; (done || lia).
  - intros self data sends Hb Hc Hsize Hf Hdata.
    assert (1 <= length data)%nat as Hlen
      by (destruct data; [done|simpl; lia]).
    unfold INT_MAX in Hsize.
    split.
    + unfold chunk_count. rewrite Z.sub_0_r.
      rewrite (ulong_small (Z.of_nat (length data))) by lia.
      change (ulong (ulong 0 - 1)) with (2 ^ 64 - 1).
      rewrite Z.min_r by lia. done.
    + rewrite send_connected, Hf by done.
      rewrite send_loop_eq. cbv zeta.
      change (ulong 0) with 0.
      destruct (Z.ltb_spec 0 (Z.of_nat (length data))) as [_|?]; [|lia].
      done.
Qed.

Lemma send_loop_end_witness :
  TcpSocket_new 255 =
    {| sockfd := None; remote_sockfd := None; packet_len := 255 |} /\
  finished (send (connected 3) (bytes_of [1; 2; 3]) (whole 3 3)).1.1 = true /\
  (chunk_count 1 1 0 = 0 /\
   (send (connected 1) (bytes_of [5]) (whole 1 4)).1.1 = Pending) /\
  (chunk_count 0 1 0 = 1 mod 256 /\
   (send (connected 0) (bytes_of [5]) (whole 0 4)).1.1 = Undefined).
Proof.
  destruct send_loop_end as (Hnew & Hfin & Hstuck & Hzero).
  split; [|split; [|split]].
  - apply Hnew. lia.
  - apply Hfin; [reflexivity|reflexivity|vm_compute; discriminate
                 |simpl; lia|simpl; lia].
  - apply (Hstuck (connected 1) (bytes_of [5]) (whole 1 4));
      [reflexivity|reflexivity|vm_compute; discriminate|reflexivity
      |discriminate|].
    repeat constructor; simpl; lia.
  - apply (Hzero (connected 0) (bytes_of [5]) (whole 0 4));
      [reflexivity|reflexivity|vm_compute; discriminate|reflexivity
      |discriminate].
Defined.

(** C10 as stated fails for the packet length 0: the chunk computed for a
    message of one byte is 1, not 0, and the call does not loop: its first
    turn writes outside the empty buffer. *)
Lemma chunk_count_zero_packet_len :
  ~ (forall f (data : list byte), 0 <= f <= 1 -> data <> [] ->
       chunk_count f (Z.of_nat (length data)) 0 = 0) /\
  chunk_count 0 1 0 = 1 /\
  (send (connected 0) (bytes_of [5]) (whole 0 4)).1.1 = Undefined.
Proof.
  split; [|by vm_compute].
  intros H. specialize (H 0 (bytes_of [5]) ltac:(lia) ltac:(discriminate)).
  vm_compute in H. discriminate H.
Qed.

(** ** The test program *)

(** [nix_tcp_test.cpp]: two sockets with packets of 32 bytes; the first one
    binds, accepts and sends the bytes 0 to 47; the second one binds,
    connects, receives them, doubles each byte and sends them back. *)
Example test_program :
  let gai_bind fd :=
    {| gai_ret := 0; gai_strerror := "Success";
       server_info :=
         [{| bc_socket := fd; bc_setsockopt := {| ret := 0; errno := 0 |};
             bc_bind := 0 |}] |} in
  let gai_connect fd :=
    {| gai_ret := 0; gai_strerror := "Success";
       server_info := [{| cc_socket := fd; cc_connect := 0 |}] |} in
  let double (b : byte) := byte_of_Z (Z_of_byte b * 2) in
  let sck1 := (bind (TcpSocket_new 32) (gai_bind 3)).2 in
  let sck1 := (accept sck1 {| ret := 0; errno := 0 |} [-1; 5]).2 in
  let sck2 := (bind (TcpSocket_new 32) (gai_bind 4)).2 in
  let sck2 := (connect sck2 (gai_connect 6)).2 in
  let data := bytes_of (seqZ 0 48) in
  let sent1 := send sck1 data (whole 32 2) in
  let got2 := recv sck2 (deliver sent1.2) in
  let sent2 := send sck2 (double <$> data) (whole 32 2) in
  let got1 := recv sck1 (deliver sent2.2) in
  sck1 = Connected 3 5 32 /\ sck2 = Connected 4 6 32 /\
  length sent1.2 = 2%nat /\
  got2 = (Returns data, sck2) /\
  got1 = (Returns (bytes_of ((fun x => 2 * x) <$> seqZ 0 48)), sck1).
Proof. vm_compute. done. Qed.

(** * Further properties *)

(** ** The candidate loops of [bind] and [connect] *)

Lemma set_sockfd_None self : sockfd self = None -> set_sockfd self None = self.
Proof. destruct self as [fd rfd f]. simpl. by intros ->. Qed.

Lemma set_remote_sockfd_None self :
  remote_sockfd self = None -> set_remote_sockfd self None = self.
Proof. destruct self as [fd rfd f]. simpl. by intros ->. Qed.

Lemma is_bound_false self : is_bound self = false -> sockfd self = None.
Proof. unfold is_bound. by destruct (sockfd self). Qed.

Lemma is_connected_false self :
  is_connected self = false -> remote_sockfd self = None.
Proof. unfold is_connected. by destruct (remote_sockfd self). Qed.

(** The loop of [bind] overwrites the local descriptor before it reads it. *)
Lemma bind_loop_set_sockfd i self fd :
  bind_loop (set_sockfd self fd) i = bind_loop self i.
Proof. by destruct i. Qed.

Lemma connect_loop_set_remote_sockfd i self fd :
  connect_loop (set_remote_sockfd self fd) i = connect_loop self i.
Proof. by destruct i. Qed.

Lemma bind_loop_skipped skipped : forall self i,
  forallb bc_skipped skipped = true ->
  bind_loop self (skipped ++ i) = bind_loop self i.
Proof.
  induction skipped as [|c skipped IH]; intros self i Hs; [done|].
  simpl in Hs. apply andb_true_iff in Hs as [Hc Hs].
  simpl. unfold bc_skipped in Hc.
  destruct (bc_socket c =? -1).
  - by rewrite bind_loop_set_sockfd, IH.
  - simpl in Hc. apply andb_true_iff in Hc as [Hopt Hbind].
    apply negb_true_iff in Hopt. rewrite Hopt, Hbind.
    by rewrite bind_loop_set_sockfd, IH.
Qed.

Lemma connect_loop_skipped skipped : forall self i,
  forallb cc_skipped skipped = true ->
  connect_loop self (skipped ++ i) = connect_loop self i.
Proof.
  induction skipped as [|c skipped IH]; intros self i Hs; [done|].
  simpl in Hs. apply andb_true_iff in Hs as [Hc Hs].
  simpl. unfold cc_skipped in Hc.
  destruct (cc_socket c =? -1).
  - by rewrite connect_loop_set_remote_sockfd, IH.
  - simpl in Hc. rewrite Hc.
    by rewrite connect_loop_set_remote_sockfd, IH.
Qed.

(** X1.  [bind] takes the first address at which [socket], [setsockopt] and
    [::bind] all succeed, when the addresses before it were given up with
    [continue]: it returns with the descriptor of that address stored and
    does not look at the addresses behind it. *)
Theorem bind_first_usable self gai skipped c rest :
  is_bound self = false ->
  gai_ret gai = 0 ->
  server_info gai = skipped ++ c :: rest ->
  forallb bc_skipped skipped = true ->
  bc_usable c = true ->
  bind self gai = (Returns (), set_sockfd self (Some (bc_socket c))).
Proof.
  intros Hb Hgai Hinfo Hs Hc. unfold bind. rewrite Hb, Hgai, Hinfo. simpl.
  rewrite bind_loop_skipped by done. simpl.
  unfold bc_usable in Hc.
  apply andb_true_iff in Hc as [Hc Hbind].
  apply andb_true_iff in Hc as [Hsock Hopt].
  apply negb_true_iff in Hsock, Hopt, Hbind.
  by rewrite Hsock, Hopt, Hbind.
Qed.

Lemma bind_first_usable_witness :
  bind (TcpSocket_new 64)
    {| gai_ret := 0; gai_strerror := "Success";
       server_info :=
         [{| bc_socket := -1; bc_setsockopt := {| ret := 0; errno := 0 |};
             bc_bind := 0 |};
          {| bc_socket := 3; bc_setsockopt := {| ret := 0; errno := 0 |};
             bc_bind := -1 |};
          {| bc_socket := 4; bc_setsockopt := {| ret := 0; errno := 0 |};
             bc_bind := 0 |};
          {| bc_socket := 5; bc_setsockopt := {| ret := 0; errno := 0 |};
             bc_bind := 0 |}] |} =
  (Returns (), set_sockfd (TcpSocket_new 64) (Some 4)).
Proof.
  apply (bind_first_usable (TcpSocket_new 64) _
           [{| bc_socket := -1; bc_setsockopt := {| ret := 0; errno := 0 |};
               bc_bind := 0 |};
            {| bc_socket := 3; bc_setsockopt := {| ret := 0; errno := 0 |};
               bc_bind := -1 |}]
           {| bc_socket := 4; bc_setsockopt := {| ret := 0; errno := 0 |};
              bc_bind := 0 |}
           [{| bc_socket := 5; bc_setsockopt := {| ret := 0; errno := 0 |};
               bc_bind := 0 |}]); reflexivity.
Defined.

(** X2.  When every address is given up (and when there is none), [bind]
    throws "couldn't bind to any address" and the socket is as it was
    before the call, unbound. *)
Theorem bind_all_skipped self gai :
  is_bound self = false ->
  gai_ret gai = 0 ->
  forallb bc_skipped (server_info gai) = true ->
  bind self gai = (Throws BindFailed, self).
Proof.
  intros Hb Hgai Hs. unfold bind. rewrite Hb, Hgai. simpl.
  rewrite <- (app_nil_r (server_info gai)).
  rewrite bind_loop_skipped by done. simpl.
  by rewrite set_sockfd_None by by apply is_bound_false.
Qed.

Lemma bind_all_skipped_witness :
  bind (TcpSocket_new 64)
    {| gai_ret := 0; gai_strerror := "Success";
       server_info :=
         [{| bc_socket := -1; bc_setsockopt := {| ret := 0; errno := 0 |};
             bc_bind := 0 |};
          {| bc_socket := 3; bc_setsockopt := {| ret := 0; errno := 0 |};
             bc_bind := -1 |}] |} =
  (Throws BindFailed, TcpSocket_new 64).
Proof. apply bind_all_skipped; reflexivity. Defined.

(** X3.  [connect] takes the first address at which [socket] and
    [::connect] both succeed: it returns with the descriptor of that
    address as the remote descriptor. *)
Theorem connect_first_usable self gai skipped c rest :
  is_bound self = true -> is_connected self = false ->
  gai_ret gai = 0 ->
  server_info gai = skipped ++ c :: rest ->
  forallb cc_skipped skipped = true ->
  cc_usable c = true ->
  connect self gai =
    (Returns (), set_remote_sockfd self (Some (cc_socket c))).
Proof.
  intros Hb Hc Hgai Hinfo Hs Hu. unfold connect.
  rewrite Hb, Hc, Hgai, Hinfo. simpl.
  rewrite connect_loop_skipped by done. simpl.
  unfold cc_usable in Hu.
  apply andb_true_iff in Hu as [Hsock Hconn].
  apply negb_true_iff in Hsock, Hconn.
  by rewrite Hsock, Hconn.
Qed.

Lemma connect_first_usable_witness :
  connect (Bound 3 None 64)
    {| gai_ret := 0; gai_strerror := "Success";
       server_info :=
         [{| cc_socket := 5; cc_connect := -1 |};
          {| cc_socket := 6; cc_connect := 0 |}] |} =
  (Returns (), set_remote_sockfd (Bound 3 None 64) (Some 6)).
Proof.
  apply (connect_first_usable (Bound 3 None 64) _
           [{| cc_socket := 5; cc_connect := -1 |}]
           {| cc_socket := 6; cc_connect := 0 |} []); reflexivity.
Defined.

Lemma connect_loop_throws_only_exhausted i : forall self e self',
  connect_loop self i = (Throws e, self') ->
  e = ConnectFailed /\ self' = set_remote_sockfd self None.
Proof.
  induction i as [|c next IH]; intros self e self' H; simpl in H.
  - by inversion H.
  - destruct (cc_socket c =? -1);
      [rewrite connect_loop_set_remote_sockfd in H; by apply IH in H|].
    destruct (cc_connect c =? -1);
      [rewrite connect_loop_set_remote_sockfd in H; by apply IH in H|done].
Qed.

(** X4.  A [connect] that throws on a bound, unconnected socket gives the
    socket back as it was: the descriptors tried and closed in the loop
    are not kept. *)
Theorem connect_failure_unchanged self gai e self' :
  is_bound self = true -> is_connected self = false ->
  connect self gai = (Throws e, self') ->
  self' = self.
Proof.
  intros Hb Hc H. unfold connect in H. rewrite Hb, Hc in H. simpl in H.
  destruct (negb (gai_ret gai =? 0)); [by inversion H|].
  apply connect_loop_throws_only_exhausted in H as [_ ->].
  by apply set_remote_sockfd_None, is_connected_false.
Qed.

Lemma connect_failure_unchanged_witness :
  Bound 3 None 64 = Bound 3 None 64.
Proof.
  apply (connect_failure_unchanged (Bound 3 None 64)
           {| gai_ret := 0; gai_strerror := "Success";
              server_info := [{| cc_socket := 5; cc_connect := -1 |}] |}
           ConnectFailed (Bound 3 None 64)); reflexivity.
Defined.

Lemma bind_loop_throws_unchanged i : forall self e self',
  bind_loop self i = (Throws e, self') ->
  message e <> "couldn't set socket options" ->
  self' = set_sockfd self None.
Proof.
  induction i as [|c next IH]; intros self e self' H Hmsg; simpl in H.
  - by inversion H.
  - destruct (bc_socket c =? -1);
      [rewrite bind_loop_set_sockfd in H; by eapply IH|].
    destruct (ret (bc_setsockopt c) =? -1).
    + inversion H; subst. done.
    + destruct (bc_bind c =? -1);
        [rewrite bind_loop_set_sockfd in H; by eapply IH|done].
Qed.

(** X5.  A [bind] that throws anything but the [setsockopt] error on an
    unbound socket gives the socket back as it was. *)
Theorem bind_failure_unchanged self gai e self' :
  is_bound self = false ->
  bind self gai = (Throws e, self') ->
  message e <> "couldn't set socket options" ->
  self' = self.
Proof.
  intros Hb H Hmsg. unfold bind in H. rewrite Hb in H.
  destruct (negb (gai_ret gai =? 0)); [by inversion H|].
  apply bind_loop_throws_unchanged in H; [|done]. subst self'.
  by apply set_sockfd_None, is_bound_false.
Qed.

Lemma bind_failure_unchanged_witness :
  TcpSocket_new 64 = TcpSocket_new 64.
Proof.
  apply (bind_failure_unchanged (TcpSocket_new 64)
           {| gai_ret := -2; gai_strerror := "Name or service not known";
              server_info := [] |}
           {| code := -2; message := "Name or service not known" |}
           (TcpSocket_new 64)); [reflexivity|reflexivity|].
  simpl. discriminate.
Defined.

(** ** [accept] *)

Lemma accept_loop_retries n : forall self fd accepts,
  accept_loop self (replicate n (-1) ++ fd :: accepts) =
    accept_loop self (fd :: accepts).
Proof.
  induction n as [|n IH]; intros self fd accepts; [done|].
  simpl. by rewrite IH.
Qed.

Lemma accept_loop_all_fail n : forall self,
  (accept_loop self (replicate n (-1))).1 = Pending.
Proof. induction n as [|n IH]; intros self; [done|]. simpl. apply IH. Qed.

(** X6.  [accept] tries again for as long as [::accept] returns -1: after
    any number of failed calls it returns with the first descriptor that
    is not -1 as the remote descriptor, and while every call fails it
    neither returns nor throws. *)
Theorem accept_retries self listen n fd rest :
  is_bound self = true -> is_connected self = false ->
  ret listen <> -1 -> fd <> -1 ->
  accept self listen (replicate n (-1) ++ fd :: rest) =
    (Returns (), set_remote_sockfd self (Some fd)) /\
  (accept self listen (replicate n (-1))).1 = Pending.
Proof.
  intros Hb Hc Hl Hfd. unfold accept. rewrite Hb, Hc. simpl.
  destruct (Z.eqb_spec (ret listen) (-1)) as [?|_]; [done|].
  split.
  - rewrite accept_loop_retries. simpl.
    destruct (Z.eqb_spec fd (-1)) as [?|_]; done.
  - apply accept_loop_all_fail.
Qed.

Lemma accept_retries_witness :
  accept (Bound 3 None 64) {| ret := 0; errno := 0 |}
    (replicate 2 (-1) ++ 5 :: [6]) =
    (Returns (), set_remote_sockfd (Bound 3 None 64) (Some 5)) /\
  (accept (Bound 3 None 64) {| ret := 0; errno := 0 |}
     (replicate 2 (-1))).1 = Pending.
Proof.
  apply (accept_retries (Bound 3 None 64) {| ret := 0; errno := 0 |} 2 5 [6]);
    [reflexivity|reflexivity|simpl; lia|lia].
Defined.

Lemma accept_loop_no_throw accepts : forall self e self',
  accept_loop self accepts <> (Throws e, self').
Proof.
  induction accepts as [|fd accepts IH]; intros self e self'; simpl; [done|].
  destruct (negb (fd =? -1)); [done|apply IH].
Qed.

(** X7.  [accept] throws only before it has accepted anything: for an
    unbound socket, a connected socket, or a failed [listen]; the socket it
    gives back is the one it was given. *)
Theorem accept_failure_unchanged self listen accepts e self' :
  accept self listen accepts = (Throws e, self') ->
  self' = self /\
  (e = NotBound \/ e = AlreadyConnected \/
   (ret listen = -1 /\
    e = {| code := errno listen;
           message := "couldn't listen for connections" |})).
Proof.
  intros H. unfold accept in H.
  destruct (negb (is_bound self)); [inversion H; auto|].
  destruct (is_connected self); [inversion H; auto|].
  destruct (Z.eqb_spec (ret listen) (-1)) as [Hl|_].
  - inversion H; auto.
  - by apply accept_loop_no_throw in H.
Qed.

Lemma accept_failure_unchanged_witness :
  Bound 3 None 64 = Bound 3 None 64 /\
  ({| code := 98; message := "couldn't listen for connections" |} = NotBound \/
   {| code := 98; message := "couldn't listen for connections" |} =
     AlreadyConnected \/
   (-1 = -1 /\
    {| code := 98; message := "couldn't listen for connections" |} =
    {| code := 98; message := "couldn't listen for connections" |})).
Proof.
  apply (accept_failure_unchanged (Bound 3 None 64)
           {| ret := -1; errno := 98 |} [5]
           {| code := 98; message := "couldn't listen for connections" |}
           (Bound 3 None 64)).
  reflexivity.
Defined.

(** ** What the calls leave alone *)

Lemma bind_loop_frame i : forall self o self',
  bind_loop self i = (o, self') ->
  remote_sockfd self' = remote_sockfd self /\
  packet_len self' = packet_len self /\
  sockfd self' <> Some (-1).
Proof.
  induction i as [|c next IH]; intros self o self' H; simpl in H.
  - by inversion H.
  - destruct (Z.eqb_spec (bc_socket c) (-1)) as [?|Hsock];
      [by apply IH in H|].
    destruct (ret (bc_setsockopt c) =? -1).
    + inversion H; subst. simpl. repeat split; congruence.
    + destruct (bc_bind c =? -1); [by apply IH in H|].
      inversion H; subst. simpl. repeat split; congruence.
Qed.

Lemma accept_loop_frame accepts : forall self o self',
  accept_loop self accepts = (o, self') ->
  sockfd self' = sockfd self /\
  packet_len self' = packet_len self /\
  (is_connected self = true -> is_connected self' = true) /\
  (o = Returns () -> exists fd, remote_sockfd self' = Some fd /\ fd <> -1).
Proof.
  induction accepts as [|fd accepts IH]; intros self o self' H; simpl in H.
  - by inversion H.
  - destruct (Z.eqb_spec fd (-1)) as [?|Hfd]; simpl in H.
    + apply IH in H as (? & ? & ? & ?). repeat split; auto.
    + inversion H; subst. simpl. repeat split; eauto.
Qed.

Lemma connect_loop_frame i : forall self o self',
  connect_loop self i = (o, self') ->
  sockfd self' = sockfd self /\
  packet_len self' = packet_len self /\
  remote_sockfd self' <> Some (-1).
Proof.
  induction i as [|c next IH]; intros self o self' H; simpl in H.
  - by inversion H.
  - destruct (Z.eqb_spec (cc_socket c) (-1)) as [?|Hsock];
      [by apply IH in H|].
    destruct (cc_connect c =? -1); [by apply IH in H|].
    inversion H; subst. simpl. repeat split; congruence.
Qed.

Lemma send_result_socket self data sends o self' wire :
  send self data sends = (o, self', wire) -> self' = self.
Proof.
  unfold send.
  destruct (negb (is_bound self)); [by inversion 1|].
  destruct (negb (is_connected self)); [by inversion 1|].
  destruct (send_loop _ _ _ _ _ _). by inversion 1.
Qed.

Lemma recv_result_socket self recvs o self' :
  recv self recvs = (o, self') -> self' = self.
Proof.
  unfold recv.
  destruct (negb (is_bound self)); [by inversion 1|].
  destruct (negb (is_connected self)); by inversion 1.
Qed.

Lemma bind_result self gai o self' :
  bind self gai = (o, self') ->
  remote_sockfd self' = remote_sockfd self /\
  packet_len self' = packet_len self /\
  (is_bound self = true -> self' = self) /\
  (sockfd self <> Some (-1) -> sockfd self' <> Some (-1)).
Proof.
  intros H. unfold bind in H.
  destruct (is_bound self); [by inversion H|].
  destruct (negb (gai_ret gai =? 0)); [by inversion H|].
  apply bind_loop_frame in H as (? & ? & ?). done.
Qed.

Lemma accept_result self listen accepts o self' :
  accept self listen accepts = (o, self') ->
  sockfd self' = sockfd self /\
  packet_len self' = packet_len self /\
  (is_connected self = true -> self' = self) /\
  (finished o = true -> remote_sockfd self <> Some (-1) ->
   remote_sockfd self' <> Some (-1)) /\
  (is_bound self = false -> self' = self).
Proof.
  intros H. unfold accept in H.
  destruct (is_bound self); simpl in H; [|by inversion H].
  destruct (is_connected self); [by inversion H|].
  destruct (ret listen =? -1); [by inversion H|].
  pose proof (accept_loop_no_throw accepts self) as Hno.
  apply accept_loop_frame in H as Hfr. destruct Hfr as (? & ? & _ & Hret).
  repeat split; [done|done|done| |done].
  intros Hfin _. destruct o as [[]|e| |]; try done.
  - destruct Hret as (fd & -> & ?); [done|]. congruence.
  - by apply Hno in H.
Qed.

Lemma connect_result self gai o self' :
  connect self gai = (o, self') ->
  sockfd self' = sockfd self /\
  packet_len self' = packet_len self /\
  (is_connected self = true -> self' = self) /\
  (remote_sockfd self <> Some (-1) -> remote_sockfd self' <> Some (-1)) /\
  (is_bound self = false -> self' = self).
Proof.
  intros H. unfold connect in H.
  destruct (is_bound self); simpl in H; [|by inversion H].
  destruct (is_connected self); [by inversion H|].
  destruct (negb (gai_ret gai =? 0)); [by inversion H|].
  apply connect_loop_frame in H as (? & ? & ?). done.
Qed.

(** X8.  No call changes the packet length; [bind] does not touch the
    remote descriptor, and [accept] and [connect] do not touch the local
    one. *)
Theorem calls_keep_fields self :
  (forall gai o self', bind self gai = (o, self') ->
     packet_len self' = packet_len self /\
     remote_sockfd self' = remote_sockfd self) /\
  (forall listen accepts o self', accept self listen accepts = (o, self') ->
     packet_len self' = packet_len self /\ sockfd self' = sockfd self) /\
  (forall gai o self', connect self gai = (o, self') ->
     packet_len self' = packet_len self /\ sockfd self' = sockfd self).
Proof.
  split; [|split].
  - intros gai o self' H. by apply bind_result in H as (? & ? & _).
  - intros listen accepts o self' H.
    by apply accept_result in H as (? & ? & _).
  - intros gai o self' H. by apply connect_result in H as (? & ? & _).
Qed.

Lemma calls_keep_fields_witness :
  packet_len (set_sockfd (TcpSocket_new 64) (Some 4)) =
    packet_len (TcpSocket_new 64) /\
  remote_sockfd (set_sockfd (TcpSocket_new 64) (Some 4)) =
    remote_sockfd (TcpSocket_new 64).
Proof.
  destruct (calls_keep_fields (TcpSocket_new 64)) as (Hbind & _).
  apply (Hbind
           {| gai_ret := 0; gai_strerror := "Success";
              server_info :=
                [{| bc_socket := 4;
                    bc_setsockopt := {| ret := 0; errno := 0 |};
                    bc_bind := 0 |}] |} (Returns ())).
  reflexivity.
Defined.

(** X9.  No call takes a socket back to an earlier state: a bound socket
    is bound after every call, whatever the call does, and a connected
    socket is connected after every call. *)
Theorem states_never_go_back self :
  (forall gai o self', bind self gai = (o, self') ->
     (is_bound self = true -> is_bound self' = true) /\
     (is_connected self = true -> is_connected self' = true)) /\
  (forall listen accepts o self', accept self listen accepts = (o, self') ->
     (is_bound self = true -> is_bound self' = true) /\
     (is_connected self = true -> is_connected self' = true)) /\
  (forall gai o self', connect self gai = (o, self') ->
     (is_bound self = true -> is_bound self' = true) /\
     (is_connected self = true -> is_connected self' = true)) /\
  (forall data sends o self' wire, send self data sends = (o, self', wire) ->
     self' = self) /\
  (forall recvs o self', recv self recvs = (o, self') -> self' = self).
Proof.
  split; [|split; [|split; [|split]]].
  - intros gai o self' H. apply bind_result in H as (Hr & _ & Hb & _).
    split; [intros Hbd; by rewrite (Hb Hbd)|]. unfold is_connected. by rewrite Hr.
  - intros listen accepts o self' H.
    apply accept_result in H as (Hfd & _ & Hc & _ & _).
    split; [unfold is_bound; by rewrite Hfd|intros Hcd; by rewrite (Hc Hcd)].
  - intros gai o self' H.
    apply connect_result in H as (Hfd & _ & Hc & _ & _).
    split; [unfold is_bound; by rewrite Hfd|intros Hcd; by rewrite (Hc Hcd)].
  - intros. by eapply send_result_socket.
  - intros. by eapply recv_result_socket.
Qed.

Lemma states_never_go_back_witness :
  is_bound (Connected 3 5 64) = true /\ is_connected (Connected 3 5 64) = true.
Proof.
  destruct (states_never_go_back (Connected 3 5 64)) as (_ & Haccept & _).
  destruct (Haccept {| ret := 0; errno := 0 |} [7] (Throws AlreadyConnected)
              (Connected 3 5 64)) as [Hb Hc]; [reflexivity|].
  split; [apply Hb|apply Hc]; reflexivity.
Defined.

(** ** The sockets a program can hold *)

Lemma well_formed_unbound self :
  well_formed self -> is_bound self = false -> remote_sockfd self = None.
Proof.
  intros (_ & _ & Hcb) Hb. apply is_connected_false.
  destruct (is_connected self); [|done].
  rewrite Hcb in Hb; done.
Qed.

Lemma reachable_invariant self :
  reachable self -> well_formed self /\ 0 <= packet_len self < 256.
Proof.
  induction 1 as [f|s gai o s' _ [Hwf Hlen] H Hfin
                  |s listen accepts o s' _ [Hwf Hlen] H Hfin
                  |s gai o s' _ [Hwf Hlen] H Hfin
                  |s data sends o s' wire _ IH H Hfin
                  |s recvs o s' _ IH H Hfin].
  - split; [|apply uint8_range]. by repeat split.
  - apply bind_result in H as (Hr & Hp & Hb & Hfd).
    rewrite Hp. split; [|done].
    destruct (is_bound s) eqn:Hbound; [by rewrite Hb|].
    pose proof (well_formed_unbound s Hwf Hbound) as Hnone.
    destruct Hwf as (Hs & _ & _).
    repeat split; [by apply Hfd|congruence|].
    unfold is_connected. by rewrite Hr, Hnone.
  - apply accept_result in H as (Hfd & Hp & Hc & Hr & Hb).
    rewrite Hp. split; [|done].
    destruct (is_bound s) eqn:Hbound; [|by rewrite Hb].
    destruct Hwf as (Hs & Hrs & _).
    repeat split; [congruence|by apply Hr|].
    intros _. unfold is_bound in *. by rewrite Hfd.
  - apply connect_result in H as (Hfd & Hp & Hc & Hr & Hb).
    rewrite Hp. split; [|done].
    destruct (is_bound s) eqn:Hbound; [|by rewrite Hb].
    destruct Hwf as (Hs & Hrs & _).
    repeat split; [congruence|by apply Hr|].
    intros _. unfold is_bound in *. by rewrite Hfd.
  - apply send_result_socket in H. by subst.
  - apply recv_result_socket in H. by subst.
Qed.

(** X10.  Whatever calls a program has made on a socket since it built it,
    the socket is not connected without being bound, neither descriptor
    stored in it is -1, and its packet length is the 8-bit value the
    constructor was given. *)
Theorem reachable_well_formed self :
  reachable self -> well_formed self /\ 0 <= packet_len self < 256.
Proof. apply reachable_invariant. Qed.

Lemma reachable_well_formed_witness :
  well_formed (Connected 3 5 32) /\ 0 <= packet_len (Connected 3 5 32) < 256.
Proof.
  apply (reachable_well_formed (Connected 3 5 32)).
  apply (reach_accept (Bound 3 None 32) {| ret := 0; errno := 0 |} [-1; 5]
           (Returns ())); [|reflexivity|reflexivity].
  apply (reach_bind (TcpSocket_new 32)
           {| gai_ret := 0; gai_strerror := "Success";
              server_info :=
                [{| bc_socket := -1;
                    bc_setsockopt := {| ret := 0; errno := 0 |};
                    bc_bind := 0 |};
                 {| bc_socket := 3;
                    bc_setsockopt := {| ret := 0; errno := 0 |};
                    bc_bind := 0 |}] |}
           (Returns ())); [|reflexivity|reflexivity].
  apply reach_new.
Defined.

(** X11.  The destructor of a socket a program can hold closes the remote
    descriptor and then the local one, each if it is there and each once,
    and never closes -1: a descriptor that [socket] or [::accept] failed to
    give is not left in the object. *)
Theorem destructor_closes_descriptors self :
  reachable self ->
  destructor self =
    match sockfd self, remote_sockfd self with
    | Some fd, Some rfd => [rfd; fd]
    | Some fd, None => [fd]
    | None, _ => []
    end /\
  Forall (fun fd => fd <> -1) (destructor self).
Proof.
  intros Hreach.
  destruct (reachable_invariant self Hreach) as [(Hs & Hr & Hcb) _].
  unfold destructor, is_bound, is_connected in *.
  destruct (sockfd self) as [fd|], (remote_sockfd self) as [rfd|]; simpl.
  - split; [done|]. repeat constructor; congruence.
  - split; [done|]. repeat constructor; congruence.
  - by specialize (Hcb eq_refl).
  - split; [done|]. constructor.
Qed.

Lemma destructor_closes_descriptors_witness :
  destructor (Connected 3 5 32) = [5; 3] /\
  Forall (fun fd => fd <> -1) (destructor (Connected 3 5 32)).
Proof.
  apply (destructor_closes_descriptors (Connected 3 5 32)).
  apply (reach_accept (Bound 3 None 32) {| ret := 0; errno := 0 |} [-1; 5]
           (Returns ())); [|reflexivity|reflexivity].
  apply (reach_bind (TcpSocket_new 32)
           {| gai_ret := 0; gai_strerror := "Success";
              server_info :=
                [{| bc_socket := -1;
                    bc_setsockopt := {| ret := 0; errno := 0 |};
                    bc_bind := 0 |};
                 {| bc_socket := 3;
                    bc_setsockopt := {| ret := 0; errno := 0 |};
                    bc_bind := 0 |}] |}
           (Returns ())); [|reflexivity|reflexivity].
  apply reach_new.
Defined.

(** ** [send] and what [::send] answers *)

(** The loop of [send] under any answers of [::send]: [oks] are calls that
    did not fail, and [rest] is empty or starts with a call that failed. *)
Lemma send_loop_script f (data : list byte) oks : forall offset packet wire rest,
  2 <= f <= 255 ->
  Z.of_nat (length data) <= INT_MAX ->
  length packet = Z.to_nat f ->
  0 <= offset <= Z.of_nat (length data) ->
  Forall (fun r => ret r <> -1) oks ->
  match rest with [] => True | r :: _ => ret r = -1 end ->
  let n := frame_count (Z.to_nat (f - 1))
             (Z.to_nat (Z.of_nat (length data) - offset)) in
  send_loop (oks ++ rest) f data offset packet wire =
    (if (n <=? length oks)%nat then Returns ()
     else match rest with
          | [] => Pending
          | r :: _ =>
              Throws {| code := errno r; message := "couldn't send data" |}
          end,
     wire ++ zip_with taken oks
               (frames n (Z.to_nat (f - 1)) packet
                  (drop (Z.to_nat offset) data))).
Proof.
  induction oks as [|r oks IH];
    intros offset packet wire rest Hf Hsize Hp Ho Hoks Hrest n; subst n.
  - simpl app. simpl zip_with. rewrite app_nil_r.
    destruct (decide (offset = Z.of_nat (length data))) as [->|Hne].
    + rewrite send_loop_done, Z.sub_diag, frame_count_0 by lia. done.
    + pose proof (frame_count_pos (Z.to_nat (f - 1))
                    (Z.to_nat (Z.of_nat (length data) - offset))
                    ltac:(lia) ltac:(lia)) as Hpos.
      destruct (Nat.leb_spec
                  (frame_count (Z.to_nat (f - 1))
                     (Z.to_nat (Z.of_nat (length data) - offset)))
                  (length (@nil syscall))) as [Hle|_];
        [simpl in Hle; lia|].
      rewrite send_loop_eq. cbv zeta.
      rewrite ulong_small by (unfold INT_MAX in *; lia).
      destruct (Z.ltb_spec offset (Z.of_nat (length data))) as [_|?]; [|lia].
      destruct (send_turn_packet f data packet offset) as (p0 & Hs & Hfill);
        [lia|done|lia|done|].
      rewrite Hs, Hfill.
      destruct rest as [|r rest]; [done|]. by rewrite Hrest.
  - inversion Hoks as [|? ? Hr Hoks']; subst.
    destruct (decide (offset = Z.of_nat (length data))) as [->|Hne].
    + rewrite send_loop_done, Z.sub_diag, frame_count_0 by lia.
      simpl. by rewrite app_nil_r.
    + simpl app. rewrite send_loop_turn by (done || lia). cbv zeta.
      rewrite IH; [|done|done| |lia|done|done];
        [|rewrite length_next_frame; lia].
      rewrite (frame_count_step (Z.to_nat (f - 1))
                 (Z.to_nat (Z.of_nat (length data) - offset))) by lia.
      replace (Z.to_nat
                 (Z.of_nat (length data) -
                  (offset + Z.min (f - 1) (Z.of_nat (length data) - offset))))
        with (Z.to_nat (Z.of_nat (length data) - offset) -
              Nat.min (Z.to_nat (f - 1))
                (Z.to_nat (Z.of_nat (length data) - offset)))%nat by lia.
      simpl length. simpl frames. simpl zip_with.
      rewrite <- app_assoc. simpl.
      f_equal. do 3 f_equal.
      f_equal. rewrite <- drop_chunk by lia. f_equal. lia.
Qed.

Lemma Forall_length_frames n : forall c prev rest,
  (c < length prev)%nat ->
  Forall (fun fr => length fr = length prev) (frames n c prev rest).
Proof.
  induction n as [|n IH]; intros c prev rest Hc; simpl; [constructor|].
  constructor; [by apply length_next_frame|].
  rewrite <- (length_next_frame c prev rest) by done.
  apply IH. by rewrite length_next_frame.
Qed.

Lemma zip_with_taken_whole f k : forall (frs : list (list byte)),
  Forall (fun fr => length fr = Z.to_nat f) frs ->
  zip_with taken (whole f k) frs = take k frs.
Proof.
  induction k as [|k IH]; intros frs Hfrs; [done|].
  destruct frs as [|fr frs]; [done|].
  inversion Hfrs as [|? ? Hfr Hfrs']; subst.
  rewrite whole_S. simpl. rewrite IH by done. f_equal.
  unfold taken. simpl. apply take_ge. lia.
Qed.

Lemma Forall_whole f n : f <> -1 -> Forall (fun r => ret r <> -1) (whole f n).
Proof. intros Hf. by apply Forall_replicate. Qed.

(** X12.  [send] does not look at how many bytes [::send] says it took: as
    long as no call returns -1 it makes one call for each chunk and
    returns, and what has gone out is the start of each frame, as long as
    the call said. *)
Theorem send_ignores_short_writes self data sends :
  is_bound self = true -> is_connected self = true ->
  2 <= packet_len self <= 255 ->
  Z.of_nat (length data) <= INT_MAX ->
  Forall (fun r => ret r <> -1) sends ->
  (length data <= length sends)%nat ->
  send self data sends =
    (Returns (), self,
     zip_with taken sends (sent_frames (packet_len self) data)) /\
  length (send self data sends).2 =
    frame_count (Z.to_nat (packet_len self - 1)) (length data).
Proof.
  intros Hb Hc Hf Hsize Hsends Hn.
  pose proof (frame_count_le (Z.to_nat (packet_len self - 1)) (length data)
                ltac:(lia)) as Hle.
  assert (send self data sends =
    (Returns (), self,
     zip_with taken sends (sent_frames (packet_len self) data))) as Heq.
  { rewrite send_connected by done.
    rewrite <- (app_nil_r sends) at 1.
    rewrite send_loop_script;
      rewrite ?length_replicate, ?Z.sub_0_r, ?Nat2Z.id; [|done..|lia|done|done].
    destruct (Nat.leb_spec
                (frame_count (Z.to_nat (packet_len self - 1)) (length data))
                (length sends)) as [_|?]; [|lia].
    by rewrite drop_0. }
  split; [done|]. rewrite Heq. simpl snd.
  rewrite length_zip_with, sent_frames_count. lia.
Qed.

Lemma send_ignores_short_writes_witness :
  send (connected 3) (bytes_of [1; 2; 3])
    [{| ret := 3; errno := 0 |}; {| ret := 1; errno := 0 |};
     {| ret := 3; errno := 0 |}] =
    (Returns (), connected 3,
     zip_with taken
       [{| ret := 3; errno := 0 |}; {| ret := 1; errno := 0 |};
        {| ret := 3; errno := 0 |}]
       (sent_frames (packet_len (connected 3)) (bytes_of [1; 2; 3]))) /\
  length (send (connected 3) (bytes_of [1; 2; 3])
            [{| ret := 3; errno := 0 |}; {| ret := 1; errno := 0 |};
             {| ret := 3; errno := 0 |}]).2 =
    frame_count (Z.to_nat (packet_len (connected 3) - 1))
      (length (bytes_of [1; 2; 3])).
Proof.
  apply (send_ignores_short_writes (connected 3) (bytes_of [1; 2; 3])).
  - reflexivity.
  - reflexivity.
  - simpl. lia.
  - vm_compute. discriminate.
  - repeat constructor; simpl; lia.
  - simpl. lia.
Defined.

(** X13.  When a call of [::send] returns -1, [send] throws "couldn't send
    data" with the [errno] of that call; the frames before it have gone
    out and nothing of the rest of the message follows. *)
Theorem send_failure_keeps_prefix self data k r rest :
  is_bound self = true -> is_connected self = true ->
  2 <= packet_len self <= 255 ->
  Z.of_nat (length data) <= INT_MAX ->
  ret r = -1 ->
  (k < frame_count (Z.to_nat (packet_len self - 1)) (length data))%nat ->
  send self data (whole (packet_len self) k ++ r :: rest) =
    (Throws {| code := errno r; message := "couldn't send data" |}, self,
     take k (sent_frames (packet_len self) data)).
Proof.
  intros Hb Hc Hf Hsize Hr Hk.
  rewrite send_connected by done.
  rewrite send_loop_script;
    rewrite ?length_replicate, ?Z.sub_0_r, ?Nat2Z.id;
    [|done..|lia|apply Forall_whole; lia|done].
  unfold whole at 1. rewrite length_replicate.
  destruct (Nat.leb_spec
              (frame_count (Z.to_nat (packet_len self - 1)) (length data)) k)
    as [?|_]; [lia|].
  rewrite drop_0. simpl app.
  fold (sent_frames (packet_len self) data).
  rewrite zip_with_taken_whole; [done|].
  unfold sent_frames.
  pose proof (Forall_length_frames
                (frame_count (Z.to_nat (packet_len self - 1)) (length data))
                (Z.to_nat (packet_len self - 1))
                (replicate (Z.to_nat (packet_len self)) "000"%byte) data)
    as Hlen.
  rewrite length_replicate in Hlen. apply Hlen. lia.
Qed.

Lemma send_failure_keeps_prefix_witness :
  send (connected 3) (bytes_of [1; 2; 3])
    (whole (packet_len (connected 3)) 1 ++ {| ret := -1; errno := 32 |} :: []) =
    (Throws {| code := 32; message := "couldn't send data" |}, connected 3,
     take 1 (sent_frames (packet_len (connected 3)) (bytes_of [1; 2; 3]))).
Proof.
  apply (send_failure_keeps_prefix (connected 3) (bytes_of [1; 2; 3]) 1
           {| ret := -1; errno := 32 |} []).
  - reflexivity.
  - reflexivity.
  - simpl. lia.
  - vm_compute. discriminate.
  - reflexivity.
  - vm_compute. lia.
Defined.

(** X14.  An empty message is no work for [send], whatever the packet
    length: it calls [::send] not once, writes nothing and returns. *)
Theorem send_empty_message self sends :
  is_bound self = true -> is_connected self = true ->
  send self [] sends = (Returns (), self, []).
Proof.
  intros Hb Hc. rewrite send_connected by done.
  rewrite send_loop_eq. done.
Qed.

Lemma send_empty_message_witness :
  send (connected 0) [] (whole 0 2) = (Returns (), connected 0, []).
Proof. apply send_empty_message; reflexivity. Defined.

(** ** The packets of a message *)

Lemma payload_next_frame c prev rest :
  (c <= 255)%nat -> payload (next_frame c prev rest) = take c rest.
Proof.
  intros Hc. unfold next_frame, payload.
  rewrite Z_of_byte_of_Z, uint8_small, Nat2Z.id
    by (rewrite length_take; lia).
  apply take_app_length.
Qed.

Lemma frames_S n c prev rest :
  frames (S n) c prev rest =
    next_frame c prev rest
      :: frames n c (next_frame c prev rest) (drop c rest).
Proof. done. Qed.

Lemma concat_payload_frames n : forall c prev rest,
  (1 <= c <= 255)%nat ->
  n = frame_count c (length rest) ->
  concat (payload <$> frames n c prev rest) = rest.
Proof.
  induction n as [|n IH]; intros c prev rest Hc Hn.
  - destruct rest as [|b rest]; [done|].
    pose proof (frame_count_pos c (length (b :: rest))).
    simpl length in *. lia.
  - assert (1 <= length rest)%nat as Hrest.
    { destruct rest; [|simpl; lia].
      simpl length in Hn. rewrite frame_count_0 in Hn; lia. }
    rewrite frames_S, fmap_cons. cbn [concat].
    rewrite payload_next_frame by lia.
    rewrite IH; [apply take_drop|done|].
    rewrite frame_count_step in Hn by lia.
    rewrite length_drop.
    replace (length rest - c)%nat
      with (length rest - Nat.min c (length rest))%nat by lia.
    lia.
Qed.

(** X15.  When [::send] takes every packet whole, each packet [send] writes
    has exactly the packet length, and the chunks of the packets, read as
    [recv] reads them and put one behind the other, are the message. *)
Theorem send_packets_carry_message self data n :
  is_bound self = true -> is_connected self = true ->
  2 <= packet_len self <= 255 ->
  Z.of_nat (length data) <= INT_MAX ->
  (length data <= n)%nat ->
  let wire := (send self data (whole (packet_len self) n)).2 in
  Forall (fun fr => Z.of_nat (length fr) = packet_len self) wire /\
  concat (payload <$> wire) = data.
Proof.
  intros Hb Hc Hf Hsize Hn wire. unfold wire.
  rewrite send_whole by done. simpl snd. unfold sent_frames. split.
  - pose proof (Forall_length_frames
                  (frame_count (Z.to_nat (packet_len self - 1)) (length data))
                  (Z.to_nat (packet_len self - 1))
                  (replicate (Z.to_nat (packet_len self)) "000"%byte) data)
      as Hlen.
    rewrite length_replicate in Hlen.
    eapply Forall_impl; [apply Hlen; lia|].
    intros fr Hfr. simpl in Hfr. lia.
  - apply concat_payload_frames; [lia|done].
Qed.

Lemma send_packets_carry_message_witness :
  let wire :=
    (send (connected 3) (bytes_of [1; 2; 3])
       (whole (packet_len (connected 3)) 3)).2 in
  Forall (fun fr => Z.of_nat (length fr) = packet_len (connected 3)) wire /\
  concat (payload <$> wire) = bytes_of [1; 2; 3].
Proof.
  apply (send_packets_carry_message (connected 3) (bytes_of [1; 2; 3]) 3).
  - reflexivity.
  - reflexivity.
  - simpl. lia.
  - vm_compute. discriminate.
  - simpl. lia.
Defined.

(** ** [recv] and the packets of any peer *)

Lemma recv_loop_packet f bs recvs packet acc l :
  1 <= f <= 255 ->
  length packet = Z.to_nat f ->
  Z.of_nat (length bs) = f ->
  length_byte bs = Some l ->
  l <= f - 1 ->
  recv_loop (RecvGot bs :: recvs) f packet acc =
    if l <? f - 1 then Returns (acc ++ payload bs)
    else recv_loop recvs f bs (acc ++ payload bs).
Proof.
  intros Hf Hp Hlen Hl Hle.
  destruct bs as [|b chunk]; [done|].
  unfold length_byte in Hl. simpl in Hl. inversion Hl as [Hb]. clear Hl.
  rewrite recv_loop_got. cbv zeta.
  destruct (Z.eqb_spec (Z.of_nat (length (b :: chunk))) f) as [_|?]; [|done].
  simpl negb. cbv iota.
  rewrite (drop_ge packet) by lia. rewrite app_nil_r.
  simpl lookup. cbv iota.
  pose proof (Z_of_byte_range b) as Hrange.
  rewrite push_chunk_spec by (simpl length in *; lia).
  done.
Qed.

Lemma recv_loop_full_packets ps : forall f tail packet acc,
  1 <= f <= 255 ->
  length packet = Z.to_nat f ->
  Forall (full_packet f) ps ->
  exists packet',
    length packet' = Z.to_nat f /\
    recv_loop (deliver ps ++ tail) f packet acc =
      recv_loop tail f packet' (acc ++ concat (payload <$> ps)).
Proof.
  induction ps as [|p ps IH]; intros f tail packet acc Hf Hp Hps.
  - exists packet. split; [done|]. simpl. by rewrite app_nil_r.
  - inversion Hps as [|? ? [Hlen Hl] Hps']; subst.
    unfold deliver. rewrite fmap_cons. simpl app.
    rewrite (recv_loop_packet (Z.of_nat (length p)) p _ packet acc
               (Z.of_nat (length p) - 1)) by (done || lia).
    rewrite Z.ltb_irrefl.
    destruct (IH (Z.of_nat (length p)) tail p (acc ++ payload p))
      as (packet' & Hp' & Heq); [done|lia|done|].
    exists packet'. split; [done|].
    unfold deliver in Heq. rewrite Heq. simpl concat.
    by rewrite app_assoc.
Qed.

(** X16.  Whoever the peer is: when it sends full packets and then a short
    one, each of the packet length, [recv] returns the chunks of all of
    them in order; it reads nothing of the padding and nothing of what
    comes after the short packet. *)
Theorem recv_joins_chunks self ps p rest :
  is_bound self = true -> is_connected self = true ->
  1 <= packet_len self <= 255 ->
  Forall (full_packet (packet_len self)) ps ->
  short_packet (packet_len self) p ->
  recv self (deliver ps ++ RecvGot p :: rest) =
    (Returns (concat (payload <$> ps) ++ payload p), self).
Proof.
  intros Hb Hc Hf Hps (Hlen & l & Hl & Hshort).
  rewrite recv_connected by done. f_equal.
  destruct (recv_loop_full_packets ps (packet_len self) (RecvGot p :: rest)
              (replicate (Z.to_nat (packet_len self)) "000"%byte) [])
    as (packet' & Hp' & ->); [done|by rewrite length_replicate|done|].
  rewrite (recv_loop_packet _ p _ packet' _ l) by (done || lia).
  destruct (Z.ltb_spec l (packet_len self - 1)) as [_|?]; [done|lia].
Qed.

Lemma recv_joins_chunks_witness :
  recv (connected 3)
    (deliver [bytes_of [2; 8; 9]] ++ RecvGot (bytes_of [1; 7; 5])
       :: [RecvGot (bytes_of [0; 0; 0])]) =
    (Returns (concat (payload <$> [bytes_of [2; 8; 9]])
                ++ payload (bytes_of [1; 7; 5])), connected 3).
Proof.
  apply (recv_joins_chunks (connected 3) [bytes_of [2; 8; 9]]
           (bytes_of [1; 7; 5]) [RecvGot (bytes_of [0; 0; 0])]).
  - reflexivity.
  - reflexivity.
  - simpl. lia.
  - repeat constructor.
  - split; [reflexivity|]. exists 1. split; [reflexivity|simpl; lia].
Defined.

(** X17.  After full packets only, [recv] has not returned: it waits for
    the next packet; and when the next call of [::recv] fails, or gives
    fewer bytes than a packet because the peer has closed, [recv] throws
    and the chunks it has read are not given to the caller. *)
Theorem recv_after_full_packets self ps e rest :
  is_bound self = true -> is_connected self = true ->
  1 <= packet_len self <= 255 ->
  Forall (full_packet (packet_len self)) ps ->
  recv self (deliver ps) = (Pending, self) /\
  recv self (deliver ps ++ RecvErr e :: rest) =
    (Throws {| code := e; message := "couldn't send data" |}, self) /\
  recv self (deliver ps ++ RecvGot [] :: rest) = (Throws ShortRead, self).
Proof.
  intros Hb Hc Hf Hps.
  rewrite !recv_connected by done.
  pose proof (recv_loop_full_packets ps (packet_len self)) as Hloop.
  split; [|split]; f_equal.
  - destruct (Hloop []
                (replicate (Z.to_nat (packet_len self)) "000"%byte) [])
      as (packet' & _ & Heq); [done|by rewrite length_replicate|done|].
    rewrite app_nil_r in Heq. by rewrite Heq.
  - destruct (Hloop (RecvErr e :: rest)
                (replicate (Z.to_nat (packet_len self)) "000"%byte) [])
      as (packet' & _ & ->); [done|by rewrite length_replicate|done|].
    done.
  - destruct (Hloop (RecvGot [] :: rest)
                (replicate (Z.to_nat (packet_len self)) "000"%byte) [])
      as (packet' & _ & ->); [done|by rewrite length_replicate|done|].
    rewrite recv_loop_got. cbv zeta. simpl length.
    destruct (Z.eqb_spec (Z.of_nat 0) (packet_len self)) as [?|_]; [lia|done].
Qed.

Lemma recv_after_full_packets_witness :
  recv (connected 3) (deliver [bytes_of [2; 8; 9]]) = (Pending, connected 3) /\
  recv (connected 3) (deliver [bytes_of [2; 8; 9]] ++ RecvErr 104 :: []) =
    (Throws {| code := 104; message := "couldn't send data" |}, connected 3) /\
  recv (connected 3) (deliver [bytes_of [2; 8; 9]] ++ RecvGot [] :: []) =
    (Throws ShortRead, connected 3).
Proof.
  apply (recv_after_full_packets (connected 3) [bytes_of [2; 8; 9]] 104 []).
  - reflexivity.
  - reflexivity.
  - simpl. lia.
  - repeat constructor.
Defined.

(** ** Witnesses of the round trip and of the frames *)

Lemma roundtrip_short_last_chunk_witness :
  recv (connected 3)
    (deliver (send (connected 3) (bytes_of [1; 2; 3])
                (whole (packet_len (connected 3)) 3)).2) =
    (Returns (bytes_of [1; 2; 3]), connected 3).
Proof.
  apply (roundtrip_short_last_chunk (connected 3) (connected 3)
           (bytes_of [1; 2; 3]) 3).
  - reflexivity.
  - reflexivity.
  - reflexivity.
  - reflexivity.
  - reflexivity.
  - simpl. lia.
  - vm_compute. discriminate.
  - simpl. lia.
  - vm_compute. discriminate.
Defined.

Lemma roundtrip_full_last_chunk_witness :
  recv (connected 3)
    (deliver (send (connected 3) (bytes_of [1; 2; 3; 4])
                (whole (packet_len (connected 3)) 4)).2) =
    (Pending, connected 3).
Proof.
  apply (roundtrip_full_last_chunk (connected 3) (connected 3)
           (bytes_of [1; 2; 3; 4]) 4).
  - reflexivity.
  - reflexivity.
  - reflexivity.
  - reflexivity.
  - reflexivity.
  - simpl. lia.
  - vm_compute. discriminate.
  - simpl. lia.
  - reflexivity.
Defined.

Lemma send_inner_frames_full_witness :
  bytes_of [2; 1; 2] !! 0%nat =
    Some (byte_of_Z (packet_len (connected 3) - 1)).
Proof.
  apply (send_inner_frames_full (connected 3) (bytes_of [1; 2; 3]) 3 0
           (bytes_of [2; 1; 2])).
  - reflexivity.
  - reflexivity.
  - simpl. lia.
  - vm_compute. discriminate.
  - simpl. lia.
  - reflexivity.
  - vm_compute. lia.
Defined.


(** ** [bind] and a failed [setsockopt] *)

(** X22.  When [setsockopt] fails at an address, [bind] throws "couldn't set
    socket options" with its [errno], tries no address behind it, and
    leaves the descriptor of the new socket in the object, which is bound
    from then on. *)
Theorem bind_setsockopt_failure self gai skipped c rest :
  is_bound self = false ->
  gai_ret gai = 0 ->
  server_info gai = skipped ++ c :: rest ->
  forallb bc_skipped skipped = true ->
  bc_socket c <> -1 ->
  ret (bc_setsockopt c) = -1 ->
  bind self gai =
    (Throws {| code := errno (bc_setsockopt c);
               message := "couldn't set socket options" |},
     set_sockfd self (Some (bc_socket c))) /\
  is_bound (bind self gai).2 = true.
Proof.
  intros Hb Hgai Hinfo Hs Hsock Hopt.
  assert (bind self gai =
    (Throws {| code := errno (bc_setsockopt c);
               message := "couldn't set socket options" |},
     set_sockfd self (Some (bc_socket c)))) as Heq.
  { unfold bind. rewrite Hb, Hgai, Hinfo. simpl.
    rewrite bind_loop_skipped by done. simpl.
    destruct (Z.eqb_spec (bc_socket c) (-1)) as [?|_]; [done|].
    by rewrite Hopt. }
  split; [done|]. by rewrite Heq.
Qed.

Lemma bind_setsockopt_failure_witness :
  let gai :=
    {| gai_ret := 0; gai_strerror := "Success";
       server_info :=
         [{| bc_socket := -1; bc_setsockopt := {| ret := 0; errno := 0 |};
             bc_bind := 0 |};
          {| bc_socket := 3; bc_setsockopt := {| ret := -1; errno := 22 |};
             bc_bind := 0 |};
          {| bc_socket := 4; bc_setsockopt := {| ret := 0; errno := 0 |};
             bc_bind := 0 |}] |} in
  bind (TcpSocket_new 64) gai =
    (Throws {| code := 22; message := "couldn't set socket options" |},
     set_sockfd (TcpSocket_new 64) (Some 3)) /\
  is_bound (bind (TcpSocket_new 64) gai).2 = true.
Proof.
  apply (bind_setsockopt_failure (TcpSocket_new 64) _
           [{| bc_socket := -1; bc_setsockopt := {| ret := 0; errno := 0 |};
               bc_bind := 0 |}]
           {| bc_socket := 3; bc_setsockopt := {| ret := -1; errno := 22 |};
              bc_bind := 0 |}
           [{| bc_socket := 4; bc_setsockopt := {| ret := 0; errno := 0 |};
               bc_bind := 0 |}]);
    [reflexivity|reflexivity|reflexivity|reflexivity|simpl; lia|reflexivity].
Defined.
